(** * dsiem backlog manager (internal/dsiem/pkg/siem/backlogmgr.go)

    A shallow embedding of the backlog lifecycle manager: the reference
    resolver [initBackLogRules], backlog creation [createNewBackLog], one
    iteration of the per-directive event loop [manager], the removal consumer
    [removeBackLog] and the watchdog sweep of [startWatchdogTicker].

    Go slices are pointers into backing arrays, so the rules of a directive
    live in a heap of arrays and a directive holds a slice into it.  Locks,
    goroutine launches, logging and calls into collaborators are recorded as
    an action trace in program order.  A Go run-time panic (index out of
    range) is the [None] of the option monad. *)

From Stdlib Require Import ZArith String Ascii DecimalString Lia.
From stdpp Require Import base option list gmap strings.

(** ** Machine integers

    Go's [int] on the 64-bit targets of the project: two's complement,
    arithmetic wraps around. *)

Definition wrap (z : Z) : Z := ((z + 2 ^ 63) mod 2 ^ 64 - 2 ^ 63)%Z.

Definition int_add (a b : Z) : Z := wrap (a + b).

Definition int_sub (a b : Z) : Z := wrap (a - b).

Definition int_range (z : Z) : Prop := (- 2 ^ 63 ≤ z < 2 ^ 63)%Z.

(** ** Collaborating packages *)

Module strconv.

(** [strconv.Itoa]: the decimal text of an int, a leading minus sign for a
    negative one. *)
Definition Itoa (n : Z) : string := NilZero.string_of_int (Z.to_int n).

End strconv.

Module str.

Definition digit_value (c : ascii) : option Z :=
  let n := nat_of_ascii c in
  if (48 <=? n)%nat && (n <=? 57)%nat then Some (Z.of_nat (n - 48)) else None.

Fixpoint digits (acc : Z) (s : string) : option Z :=
  match s with
  | EmptyString => Some acc
  | String c s' =>
      match digit_value c with
      | Some k => digits (10 * acc + k)%Z s'
      | None => None
      end
  end.

(** Modelled from the spec: [str.RefToDigit] is not under src/.  The spec
    (4.2) says a reference is a field that "parses as a 1-based stage
    number", and the source comment of [initBackLogRules] gives its format as
    [:ref]: a colon followed by the decimal stage number.  The resolver is
    stated for any parser; this one serves where a concrete parser is
    needed. *)
Definition RefToDigit (v : string) : option Z :=
  match v with
  | String ":" (String c s') => digits 0 (String c s')
  | _ => None
  end.

End str.

Module event.

(** Modelled from the spec: the declaration of [event.NormalizedEvent] is not
    under src/.  The fields are the ones the manager reads ([ConnID], [SrcIP],
    [DstIP], [SrcPort], [DstPort]) and the timestamp the spec (3, 6) lists, as
    Unix seconds. *)
Record NormalizedEvent := {
  ConnID : Z;
  Timestamp : Z;
  SrcIP : string;
  DstIP : string;
  SrcPort : Z;
  DstPort : Z }.

End event.

(** ** Data model *)

(** Modelled from the spec: the declaration of the rule type is not under
    src/.  The fields are the ones the manager touches ([Status], [From],
    [To], [PortFrom], [PortTo], [StartTime]) and the protocol the spec (3)
    lists, which stands for what the manager never writes. *)
Record directiveRule := {
  Status : string;
  From : string;
  To : string;
  PortFrom : string;
  PortTo : string;
  Protocol : string;
  StartTime : Z }.

Definition set_Status (x : string) (r : directiveRule) : directiveRule :=
  {| Status := x; From := From r; To := To r; PortFrom := PortFrom r;
     PortTo := PortTo r; Protocol := Protocol r; StartTime := StartTime r |}.

Definition set_From (x : string) (r : directiveRule) : directiveRule :=
  {| Status := Status r; From := x; To := To r; PortFrom := PortFrom r;
     PortTo := PortTo r; Protocol := Protocol r; StartTime := StartTime r |}.

Definition set_To (x : string) (r : directiveRule) : directiveRule :=
  {| Status := Status r; From := From r; To := x; PortFrom := PortFrom r;
     PortTo := PortTo r; Protocol := Protocol r; StartTime := StartTime r |}.

Definition set_PortFrom (x : string) (r : directiveRule) : directiveRule :=
  {| Status := Status r; From := From r; To := To r; PortFrom := x;
     PortTo := PortTo r; Protocol := Protocol r; StartTime := StartTime r |}.

Definition set_PortTo (x : string) (r : directiveRule) : directiveRule :=
  {| Status := Status r; From := From r; To := To r; PortFrom := PortFrom r;
     PortTo := x; Protocol := Protocol r; StartTime := StartTime r |}.

Definition set_StartTime (x : Z) (r : directiveRule) : directiveRule :=
  {| Status := Status r; From := From r; To := To r; PortFrom := PortFrom r;
     PortTo := PortTo r; Protocol := Protocol r; StartTime := x |}.

(** A slice is [nil] or points at a backing array of the heap; its length is
    the array's. *)
Abbreviation loc := positive.
Abbreviation slice := (option positive).
Abbreviation heap := (gmap positive (list directiveRule)).

Definition deref (h : heap) (s : slice) : option (list directiveRule) :=
  match s with
  | None => Some []
  | Some l => h !! l
  end.

Module directive.

Record t := mk { ID : Z; Rules : slice }.

(** [directive{}] *)
Definition zero : t := {| ID := 0; Rules := None |}.

End directive.

(** [Rules[i]] with a Go int index: out of range panics. *)
Definition index (Rules : list directiveRule) (i : Z) : option directiveRule :=
  if (i <? 0)%Z then None else Rules !! Z.to_nat i.

(** [Rules[i].field = x], written as the update [f] of the element. *)
Definition assign (Rules : list directiveRule) (i : nat)
    (f : directiveRule → directiveRule) : option (list directiveRule) :=
  r ← Rules !! i; Some (<[i := f r]> Rules).

(** [for i := range Rules] over the indices [idxs], in order. *)
Fixpoint for_range (body : list directiveRule → nat → option (list directiveRule))
    (idxs : list nat) (Rules : list directiveRule) : option (list directiveRule) :=
  match idxs with
  | [] => Some Rules
  | i :: idxs' => Rules' ← body Rules i; for_range body idxs' Rules'
  end.

(** In-place update of the backing array of a slice. *)
Definition in_place (s : slice)
    (f : list directiveRule → option (list directiveRule)) (h : heap) : option heap :=
  match s with
  | None => _ ← f []; Some h
  | Some l => Rules ← h !! l; Rules' ← f Rules; Some (<[l := Rules']> h)
  end.

Section Resolver.

(** [str.RefToDigit], any parser of references. *)
Variable RefToDigit : string → option Z.

(** The body of the loop of [initBackLogRules] at index [i]. *)
Definition initBackLogRules_body (e : event.NormalizedEvent)
    (Rules : list directiveRule) (i : nat) : option (list directiveRule) :=
  if decide (i = 0) then assign Rules i (set_Status "active")
  else
    Rules ← assign Rules i (set_Status "inactive");
    r ← From <$> Rules !! i;
    Rules ← match RefToDigit r with
            | Some v =>
                let vmin1 := int_sub v 1 in
                ref ← From <$> index Rules vmin1;
                if negb (ref =? "ANY")%string && negb (ref =? "HOME_NET")%string
                   && negb (ref =? "!HOME_NET")%string
                then assign Rules i (set_From ref)
                else assign Rules i (set_From (event.SrcIP e))
            | None => Some Rules
            end;
    r ← To <$> Rules !! i;
    Rules ← match RefToDigit r with
            | Some v =>
                let vmin1 := int_sub v 1 in
                ref ← To <$> index Rules vmin1;
                if negb (ref =? "ANY")%string && negb (ref =? "HOME_NET")%string
                   && negb (ref =? "!HOME_NET")%string
                then assign Rules i (set_To ref)
                else assign Rules i (set_To (event.DstIP e))
            | None => Some Rules
            end;
    r ← PortFrom <$> Rules !! i;
    Rules ← match RefToDigit r with
            | Some v =>
                let vmin1 := int_sub v 1 in
                ref ← PortFrom <$> index Rules vmin1;
                if negb (ref =? "ANY")%string
                then assign Rules i (set_PortFrom ref)
                else assign Rules i (set_PortFrom (strconv.Itoa (event.SrcPort e)))
            | None => Some Rules
            end;
    r ← PortTo <$> Rules !! i;
    match RefToDigit r with
    | Some v =>
        let vmin1 := int_sub v 1 in
        ref ← PortTo <$> index Rules vmin1;
        if negb (ref =? "ANY")%string
        then assign Rules i (set_PortTo ref)
        else assign Rules i (set_PortTo (strconv.Itoa (event.DstPort e)))
    | None => Some Rules
    end.

(** The loop of [initBackLogRules] over the contents of [d.Rules]. *)
Definition initBackLogRules_range (e : event.NormalizedEvent)
    (Rules : list directiveRule) : option (list directiveRule) :=
  for_range (initBackLogRules_body e) (seq 0 (length Rules)) Rules.

(** [initBackLogRules(d, e)]: rewrites the backing array of [d.Rules]. *)
Definition initBackLogRules (d : directive.t) (e : event.NormalizedEvent)
    (h : heap) : option heap :=
  in_place (directive.Rules d) (initBackLogRules_range e) h.

End Resolver.

(** ** Backlogs and backlog groups *)

Module backLog.

(** Modelled from the spec: the declaration of [backLog] is not under src/.
    The fields are the ones the manager reads and writes; [bLogs] points back
    at the owning group, a position in [allBacklogs]. *)
Record t := mk {
  ID : string;
  Directive : directive.t;
  CurrentStage : Z;
  HighestStage : Z;
  bLogs : option nat }.

Definition set_bLogs (p : option nat) (b : t) : t :=
  {| ID := ID b; Directive := Directive b; CurrentStage := CurrentStage b;
     HighestStage := HighestStage b; bLogs := p |}.

End backLog.

Module backlogs.

(** [type backlogs struct { sync.RWMutex; id int; bl map[string]*backLog }] *)
Record t := mk { id : Z; bl : gmap string backLog.t }.

Definition set_bl (m : gmap string backLog.t) (g : t) : t :=
  {| id := id g; bl := m |}.

End backlogs.

Module removalChannelMsg.

(** [type removalChannelMsg struct { blogs *backlogs; ID string }], the
    pointer as a position in [allBacklogs]. *)
Record t := mk { blogs : nat; ID : string }.

End removalChannelMsg.

(** [for k, v := range m] yields every entry of a Go map once, in an order
    the language leaves open. *)
Record range_order := {
  range : gmap string backLog.t → list (string * backLog.t);
  range_perm : ∀ m, range m ≡ₚ map_to_list m }.

Definition range_default : range_order :=
  {| range := map_to_list; range_perm := λ m, reflexivity (map_to_list m) |}.

(** ** Actions of a goroutine, in program order *)

Inductive mutex :=
  | glock
  | alarms_mu
  | blogs_mu (p : nat)
  | backLog_mu (bid : string).

Inductive level := Debug | Info | Warn.

Inductive action :=
  | Lock (m : mutex)
  | Unlock (m : mutex)
  | RLock (m : mutex)
  | RUnlock (m : mutex)
  | Log (l : level) (msg : string)
  | Match (r : directiveRule) (connID : Z) (res : bool)
  | Go_processMatchedEvent (bid : string) (e : event.NormalizedEvent) (idx : Z)
  | Call_processMatchedEvent (bid : string) (e : event.NormalizedEvent) (idx : Z)
  | Call_checkExpired (p : nat) (bid : string)
  | MapStore (p : nat) (bid : string)
  | MapDelete (p : nat) (bid : string)
  | Set_alarmCounter (n : Z)
  | Set_backlogCounter (n : Z).

(** What [idgen.GenerateID] returned: an identifier or an error. *)
Inductive result (A : Type) :=
  | ok (a : A)
  | err (msg : string).

Arguments ok {A} a.
Arguments err {A} msg.

(** ** Backlog creation *)

(** Modelled from the spec: [copyDirective] is not under src/.  The spec
    (4.3, 3) says the backlog gets "a deep copy of the directive", "not the
    shared template": the destination takes the identifier of the template
    and a newly allocated array holding the template's rules. *)
Definition copyDirective_deep (dst src : directive.t) (e : event.NormalizedEvent)
    (h : heap) : option (directive.t * heap) :=
  Rules ← deref h (directive.Rules src);
  let l := fresh (dom h) in
  Some ({| directive.ID := directive.ID src; directive.Rules := Some l |},
        <[l := Rules]> h).

Section Manager.

Variable RefToDigit : string → option Z.

(** [copyDirective(dst, src, e)]: the destination it fills and the heap it
    leaves. *)
Variable copyDirective :
  directive.t → directive.t → event.NormalizedEvent → heap
  → option (directive.t * heap).

(** The match predicate, a pure function of event, rule and connection id. *)
Variable doesEventMatchRule : event.NormalizedEvent → directiveRule → Z → bool.

(** What a synchronous [processMatchedEvent] leaves of the backlog and of the
    heap of rules. *)
Variable processMatchedEvent :
  event.NormalizedEvent → Z → backLog.t → heap → backLog.t * heap.

(** [createNewBackLog(d, e)], given what [idgen.GenerateID] returned and the
    clock reading [now] of [time.Now().Unix()]. *)
Definition createNewBackLog (d : directive.t) (e : event.NormalizedEvent)
    (gen : result string) (now : Z) (h : heap)
    : option (result backLog.t * heap * list action) :=
  match gen with
  | err msg => Some (err msg, h, [])
  | ok bid =>
      '(bDirective, h) ← copyDirective directive.zero d e h;
      h ← initBackLogRules RefToDigit bDirective e h;
      h ← in_place (directive.Rules bDirective)
             (λ Rules, assign Rules 0 (set_StartTime now)) h;
      Rules ← deref h (directive.Rules d);
      Some (ok {| backLog.ID := bid; backLog.Directive := bDirective;
                  backLog.CurrentStage := 1;
                  backLog.HighestStage := Z.of_nat (length Rules);
                  backLog.bLogs := None |},
            h, [Log Info "Creating new backlog"])
  end.

(** The scan of the existing backlogs, in the order [range] yields them:
    the actions, and the identifier and rule index of the backlog the event
    was dispatched to, if any. *)
Fixpoint manager_scan (d : directive.t) (e : event.NormalizedEvent) (h : heap)
    (bl : gmap string backLog.t) (vs : list backLog.t)
    : option (list action * option (string * Z)) :=
  match vs with
  | [] => Some ([], None)
  | v :: vs' =>
      let cs := backLog.CurrentStage v in
      if negb (directive.ID (backLog.Directive v) =? directive.ID d)%Z
         || (cs <=? 1)%Z
      then
        '(tr, found) ← manager_scan d e h bl vs';
        Some (RLock (backLog_mu (backLog.ID v))
              :: RUnlock (backLog_mu (backLog.ID v)) :: tr, found)
      else
        let idx := int_sub cs 1 in
        Rules ← deref h (directive.Rules (backLog.Directive v));
        currRule ← index Rules idx;
        if negb (doesEventMatchRule e currRule (event.ConnID e))
        then
          '(tr, found) ← manager_scan d e h bl vs';
          Some (RLock (backLog_mu (backLog.ID v))
                :: Match currRule (event.ConnID e) false
                :: RUnlock (backLog_mu (backLog.ID v)) :: tr, found)
        else
          _ ← bl !! backLog.ID v;
          Some ([RLock (backLog_mu (backLog.ID v));
                 Match currRule (event.ConnID e) true;
                 Log Debug (" Event match with existing backlog. CurrentStage is "
                            +:+ strconv.Itoa cs);
                 RUnlock (backLog_mu (backLog.ID v));
                 Go_processMatchedEvent (backLog.ID v) e idx],
                Some (backLog.ID v, idx))
  end.

(** What one iteration of the loop of [manager] takes from outside: the
    event received, the order [range] yields the backlogs in, what
    [idgen.GenerateID] returns and the clock. *)
Record input := {
  ev : event.NormalizedEvent;
  order : range_order;
  gen : result string;
  now : Z }.

(** The state one group loop works on: the heap of rule arrays and the map
    of the group. *)
Record state := { st_heap : heap; st_bl : gmap string backLog.t }.

(** One iteration of the loop of [manager], for the group at position [self]
    of [allBacklogs]. *)
Definition manager_body (self : nat) (d : directive.t) (inp : input) (σ : state)
    : option (state * list action) :=
  let e := ev inp in
  let h := st_heap σ in
  let bl := st_bl σ in
  '(tr, found) ← manager_scan d e h bl (range (order inp) bl).*2;
  match found with
  | Some _ => Some (σ, [Lock (blogs_mu self)] ++ tr ++ [Unlock (blogs_mu self)])
  | None =>
      Rules ← deref h (directive.Rules d);
      rule0 ← index Rules 0;
      if negb (doesEventMatchRule e rule0 (event.ConnID e))
      then Some (σ, [Lock (blogs_mu self)] ++ tr
                    ++ [Match rule0 (event.ConnID e) false; Unlock (blogs_mu self)])
      else
        '(b, h', trc) ← createNewBackLog d e (gen inp) (now inp) h;
        match b with
        | err _ =>
            Some ({| st_heap := h'; st_bl := bl |},
                  [Lock (blogs_mu self)] ++ tr
                  ++ [Match rule0 (event.ConnID e) true] ++ trc
                  ++ [Log Warn "Fail to create new backlog"; Unlock (blogs_mu self)])
        | ok b =>
            let bl := <[backLog.ID b := b]> bl in
            let bl := alter (backLog.set_bLogs (Some self)) (backLog.ID b) bl in
            b' ← bl !! backLog.ID b;
            let '(b'', h'') := processMatchedEvent e 0 b' h' in
            Some ({| st_heap := h''; st_bl := <[backLog.ID b := b'']> bl |},
                  [Lock (blogs_mu self)] ++ tr
                  ++ [Match rule0 (event.ConnID e) true] ++ trc
                  ++ [Lock glock; MapStore self (backLog.ID b);
                      Unlock (blogs_mu self);
                      Call_processMatchedEvent (backLog.ID b) e 0;
                      Unlock glock])
        end
  end.

(** The loop of [manager] over the events the channel delivers; between two
    iterations the other goroutines (dispatched stage advances, removals) may
    have changed the state, which [interfere] stands for. *)
Fixpoint manager (self : nat) (d : directive.t)
    (ch : list (input * (state → state))) (σ : state)
    : option (state * list action) :=
  match ch with
  | [] => Some (σ, [])
  | (inp, interfere) :: ch' =>
      '(σ1, tr1) ← manager_body self d inp (interfere σ);
      '(σ2, tr2) ← manager self d ch' σ1;
      Some (σ2, tr1 ++ tr2)
  end.

(** ** Removal consumer and watchdog sweep *)

(** [removeBackLog(m)] on [allBacklogs]. *)
Definition removeBackLog (m : removalChannelMsg.t) (allBacklogs : list backlogs.t)
    : option (list backlogs.t * list action) :=
  let p := removalChannelMsg.blogs m in
  g ← allBacklogs !! p;
  Some (<[p := backlogs.set_bl (delete (removalChannelMsg.ID m) (backlogs.bl g)) g]>
          allBacklogs,
        [Lock (blogs_mu p);
         Log Debug "Lock obtained. Removing backlog";
         Lock glock;
         MapDelete p (removalChannelMsg.ID m);
         Unlock glock;
         Unlock (blogs_mu p)]).

(** [for j := range allBacklogs[i].bl { allBacklogs[i].bl[j].checkExpired() }] *)
Fixpoint check_all (p : nat) (m : gmap string backLog.t) (js : list string)
    : option (list action) :=
  match js with
  | [] => Some []
  | j :: js' =>
      _ ← m !! j;
      tr ← check_all p m js';
      Some (Call_checkExpired p j :: tr)
  end.

(** The loop [for i := range allBacklogs] of the sweep, from position [i] on,
    over the groups as the sweep finds them when it holds their locks. *)
Fixpoint sweep_groups (order : range_order) (i : nat) (gs : list backlogs.t)
    (bLen : Z) : option (Z * list action) :=
  match gs with
  | [] => Some (bLen, [])
  | g :: gs' =>
      let pre := [RLock glock; RLock (blogs_mu i);
                  Log Debug ("ticker locked backlogs " +:+ strconv.Itoa (backlogs.id g))] in
      let l := Z.of_nat (size (backlogs.bl g)) in
      if (l =? 0)%Z then
        '(n, tr) ← sweep_groups order (S i) gs' bLen;
        Some (n, pre ++ [RUnlock (blogs_mu i); RUnlock glock] ++ tr)
      else
        let bLen := int_add bLen l in
        trc ← check_all i (backlogs.bl g) (range order (backlogs.bl g)).*1;
        '(n, tr) ← sweep_groups order (S i) gs' bLen;
        Some (n, pre ++ trc ++ [RUnlock (blogs_mu i); RUnlock glock] ++ tr)
  end.

(** [readEPS()], given what [expvar.Get("eps_counter")] holds. *)
Definition readEPS (x : option string) : string :=
  match x with
  | Some s => " events/sec:" +:+ s
  | None => ""
  end.

(** One tick of the watchdog: the published counters are in the trace, the
    result is the value [backlogCounter] is set to. *)
Definition watchdog_tick (order : range_order) (alarms : Z) (eps : option string)
    (allBacklogs : list backlogs.t) : option (Z * list action) :=
  let aLen := alarms in
  '(bLen, tr) ← sweep_groups order 0 allBacklogs 0;
  Some (bLen,
        [Log Debug "Watchdog tick started.";
         RLock alarms_mu; Set_alarmCounter aLen; RUnlock alarms_mu]
        ++ tr
        ++ [Set_backlogCounter bLen;
            Log Info ("Watchdog tick ended, # of backlogs:" +:+ strconv.Itoa bLen
                      +:+ " alarms:" +:+ strconv.Itoa aLen +:+ readEPS eps)]).

End Manager.

(** ** The resolver as the specification words it *)

(** The four addressable fields of a rule. *)
Inductive field := F_From | F_To | F_PortFrom | F_PortTo.

Definition get (f : field) (r : directiveRule) : string :=
  match f with
  | F_From => From r
  | F_To => To r
  | F_PortFrom => PortFrom r
  | F_PortTo => PortTo r
  end.

(** The values that are not copied: the wildcard classes of an address, [ANY]
    for a port. *)
Definition is_wildcard (f : field) (s : string) : bool :=
  match f with
  | F_From | F_To =>
      (s =? "ANY")%string || (s =? "HOME_NET")%string || (s =? "!HOME_NET")%string
  | F_PortFrom | F_PortTo => (s =? "ANY")%string
  end.

(** What the triggering event offers for a field. *)
Definition of_event (f : field) (e : event.NormalizedEvent) : string :=
  match f with
  | F_From => event.SrcIP e
  | F_To => event.DstIP e
  | F_PortFrom => strconv.Itoa (event.SrcPort e)
  | F_PortTo => strconv.Itoa (event.DstPort e)
  end.

(** The value a reference takes from the referenced value [ref]. *)
Definition resolved (f : field) (e : event.NormalizedEvent) (ref : string) : string :=
  if is_wildcard f ref then of_event f e else ref.

(** The directive copy as stage index [i] finds it: the stages before [i]
    are rewritten already, the others still hold the template's text. *)
Definition view (i : nat) (Rules' Rules : list directiveRule) : list directiveRule :=
  take i Rules' ++ drop i Rules.

Section ResolverSpec.

Variable RefToDigit : string → option Z.

(** A field of the rewritten rule [r'] against the template rule [r], the
    referenced stage looked up in [seen]. *)
Definition field_rewritten (f : field) (e : event.NormalizedEvent)
    (seen : list directiveRule) (r r' : directiveRule) : Prop :=
  match RefToDigit (get f r) with
  | None => get f r' = get f r
  | Some K =>
      ∃ ref, index seen (int_sub K 1) = Some ref
             ∧ get f r' = (if is_wildcard f (get f ref) then of_event f e
                           else get f ref)
  end.

(** The value the loop gives a field of the template rule [r], if the
    referenced stage exists. *)
Definition field_value (f : field) (e : event.NormalizedEvent)
    (seen : list directiveRule) (r : directiveRule) : option string :=
  match RefToDigit (get f r) with
  | Some K => (λ x, resolved f e (get f x)) <$> index seen (int_sub K 1)
  | None => Some (get f r)
  end.

(** The rewritten rule of stage index [i] against the template's. *)
Definition rule_rewritten (e : event.NormalizedEvent) (i : nat)
    (seen : list directiveRule) (r r' : directiveRule) : Prop :=
  Protocol r' = Protocol r ∧ StartTime r' = StartTime r
  ∧ if decide (i = 0)
    then Status r' = "active" ∧ ∀ f, get f r' = get f r
    else Status r' = "inactive" ∧ ∀ f, field_rewritten f e seen r r'.

(** The rewritten rules [Rules'] against the template's [Rules]. *)
Definition rules_rewritten (e : event.NormalizedEvent)
    (Rules Rules' : list directiveRule) : Prop :=
  length Rules' = length Rules
  ∧ ∀ i r, Rules !! i = Some r →
      ∃ r', Rules' !! i = Some r' ∧ rule_rewritten e i (view i Rules' Rules) r r'.

(** Every reference of a later stage names a stage of the directive. *)
Definition refs_in_range (Rules : list directiveRule) : Prop :=
  ∀ i r f K, Rules !! i = Some r → i ≠ 0 → RefToDigit (get f r) = Some K →
    (0 ≤ int_sub K 1 < Z.of_nat (length Rules))%Z.

(** Every reference of a later stage names an earlier stage. *)
Definition refs_backward (Rules : list directiveRule) : Prop :=
  ∀ i r f K, Rules !! i = Some r → i ≠ 0 → RefToDigit (get f r) = Some K →
    (0 ≤ int_sub K 1 < Z.of_nat i)%Z.

(** No field of the rule parses as a reference. *)
Definition concrete (r : directiveRule) : Prop :=
  ∀ f, RefToDigit (get f r) = None.

End ResolverSpec.

(** ** Reading a trace *)

(** The calls of the match predicate: the rule tested and the answer. *)
Definition tests (tr : list action) : list (directiveRule * bool) :=
  omap (λ a, match a with Match r _ res => Some (r, res) | _ => None end) tr.

(** The backlogs the scan looked at, by their read locks. *)
Definition visited (tr : list action) : list string :=
  omap (λ a, match a with RLock (backLog_mu bid) => Some bid | _ => None end) tr.

(** The stage advances handed to a goroutine of their own. *)
Definition dispatches (tr : list action)
    : list (string * event.NormalizedEvent * Z) :=
  omap (λ a, match a with
             | Go_processMatchedEvent bid e idx => Some (bid, e, idx)
             | _ => None
             end) tr.

(** The stage advances run by the loop itself. *)
Definition calls (tr : list action)
    : list (string * event.NormalizedEvent * Z) :=
  omap (λ a, match a with
             | Call_processMatchedEvent bid e idx => Some (bid, e, idx)
             | _ => None
             end) tr.

(** The backlogs stored into a map. *)
Definition stores (tr : list action) : list (nat * string) :=
  omap (λ a, match a with MapStore p bid => Some (p, bid) | _ => None end) tr.

(** The warnings logged. *)
Definition warnings (tr : list action) : list string :=
  omap (λ a, match a with Log Warn msg => Some msg | _ => None end) tr.

(** The calls of [checkExpired]. *)
Definition checks (tr : list action) : list (nat * string) :=
  omap (λ a, match a with Call_checkExpired p bid => Some (p, bid) | _ => None end) tr.

(** The values [backlogCounter] is set to. *)
Definition published (tr : list action) : list Z :=
  omap (λ a, match a with Set_backlogCounter n => Some n | _ => None end) tr.

(** An action that takes or releases neither the lock of group [self] nor
    the global lock, and neither stores a backlog nor advances one. *)
Definition quiet (self : nat) (a : action) : Prop :=
  match a with
  | Lock m | Unlock m | RLock m | RUnlock m => m ≠ blogs_mu self ∧ m ≠ glock
  | MapStore _ _ | Go_processMatchedEvent _ _ _
  | Call_processMatchedEvent _ _ _ => False
  | _ => True
  end.

Section ManagerSpec.

Variable doesEventMatchRule : event.NormalizedEvent → directiveRule → Z → bool.

(** A backlog the scan does not skip: of this directive, past stage 1. *)
Definition candidate (d : directive.t) (v : backLog.t) : bool :=
  (directive.ID (backLog.Directive v) =? directive.ID d)%Z
  && (1 <? backLog.CurrentStage v)%Z.

(** The rule of the stage a backlog is at, index [CurrentStage - 1]. *)
Definition stage_rule (h : heap) (v : backLog.t) : option directiveRule :=
  Rules ← deref h (directive.Rules (backLog.Directive v));
  index Rules (int_sub (backLog.CurrentStage v) 1).

(** The event matches the backlog: a candidate whose stage rule it matches. *)
Definition matches (d : directive.t) (e : event.NormalizedEvent) (h : heap)
    (v : backLog.t) : bool :=
  candidate d v
  && match stage_rule h v with
     | Some r => doesEventMatchRule e r (event.ConnID e)
     | None => false
     end.

(** The tests a scan over [vs] makes: one per candidate, none for the
    others. *)
Definition scan_tests (d : directive.t) (e : event.NormalizedEvent) (h : heap)
    (vs : list backLog.t) : list (directiveRule * bool) :=
  omap (λ v, if candidate d v
             then (λ r, (r, doesEventMatchRule e r (event.ConnID e)))
                    <$> stage_rule h v
             else None) vs.

(** What a scan that found nothing has done. *)
Definition scan_none (self : nat) d e (h : heap) (vs : list backLog.t)
    (tr : list action) : Prop :=
  Forall (λ u, matches d e h u = false) vs
  ∧ tests tr = scan_tests d e h vs
  ∧ visited tr = backLog.ID <$> vs
  ∧ dispatches tr = [] ∧ calls tr = [] ∧ stores tr = [] ∧ warnings tr = []
  ∧ Forall (quiet self) tr.

(** What a scan that found the backlog [bid] at rule index [idx] has done. *)
Definition scan_found (self : nat) d e (h : heap) (bl : gmap string backLog.t)
    (vs : list backLog.t) (tr : list action) (bid : string) (idx : Z) : Prop :=
  ∃ pre v post r tr0,
    vs = pre ++ v :: post
    ∧ Forall (λ u, matches d e h u = false) pre
    ∧ candidate d v = true
    ∧ stage_rule h v = Some r
    ∧ doesEventMatchRule e r (event.ConnID e) = true
    ∧ bid = backLog.ID v
    ∧ idx = int_sub (backLog.CurrentStage v) 1
    ∧ is_Some (bl !! backLog.ID v)
    ∧ tests tr = scan_tests d e h pre ++ [(r, true)]
    ∧ visited tr = backLog.ID <$> (pre ++ [v])
    ∧ dispatches tr = [(bid, e, idx)]
    ∧ calls tr = [] ∧ stores tr = [] ∧ warnings tr = []
    ∧ tr = tr0 ++ [Go_processMatchedEvent bid e idx]
    ∧ Forall (quiet self) tr0.

End ManagerSpec.

(** The sum of the sizes of the maps of the groups. *)
Definition total_size (gs : list backlogs.t) : Z :=
  foldr (λ g n, (Z.of_nat (size (backlogs.bl g)) + n)%Z) 0%Z gs.

(** The calls of [checkExpired] a sweep from position [i] on is to make. *)
Fixpoint expected_checks (order : range_order) (i : nat) (gs : list backlogs.t)
    : list (nat * string) :=
  match gs with
  | [] => []
  | g :: gs' =>
      ((λ k, (i, k)) <$> (range order (backlogs.bl g)).*1)
      ++ expected_checks order (S i) gs'
  end.

Section Outcomes.

Variable RefToDigit : string → option Z.
Variable copyDirective :
  directive.t → directive.t → event.NormalizedEvent → heap
  → option (directive.t * heap).
Variable doesEventMatchRule : event.NormalizedEvent → directiveRule → Z → bool.
Variable processMatchedEvent :
  event.NormalizedEvent → Z → backLog.t → heap → backLog.t * heap.

(** The ways one iteration of the loop ends. *)
Inductive body_outcome (self : nat) (d : directive.t) (inp : input)
    (σ : state) : state → list action → Prop :=
  | body_dispatched trs bid idx :
      manager_scan doesEventMatchRule d (ev inp) (st_heap σ) (st_bl σ)
        (range (order inp) (st_bl σ)).*2 = Some (trs, Some (bid, idx)) →
      body_outcome self d inp σ σ
        ([Lock (blogs_mu self)] ++ trs ++ [Unlock (blogs_mu self)])
  | body_discarded trs Rules rule0 :
      manager_scan doesEventMatchRule d (ev inp) (st_heap σ) (st_bl σ)
        (range (order inp) (st_bl σ)).*2 = Some (trs, None) →
      deref (st_heap σ) (directive.Rules d) = Some Rules →
      index Rules 0 = Some rule0 →
      doesEventMatchRule (ev inp) rule0 (event.ConnID (ev inp)) = false →
      body_outcome self d inp σ σ
        ([Lock (blogs_mu self)] ++ trs
         ++ [Match rule0 (event.ConnID (ev inp)) false; Unlock (blogs_mu self)])
  | body_failed trs Rules rule0 msg h' trc :
      manager_scan doesEventMatchRule d (ev inp) (st_heap σ) (st_bl σ)
        (range (order inp) (st_bl σ)).*2 = Some (trs, None) →
      deref (st_heap σ) (directive.Rules d) = Some Rules →
      index Rules 0 = Some rule0 →
      doesEventMatchRule (ev inp) rule0 (event.ConnID (ev inp)) = true →
      createNewBackLog RefToDigit copyDirective d (ev inp) (gen inp) (now inp) (st_heap σ)
        = Some (err msg, h', trc) →
      body_outcome self d inp σ {| st_heap := h'; st_bl := st_bl σ |}
        ([Lock (blogs_mu self)] ++ trs
         ++ [Match rule0 (event.ConnID (ev inp)) true] ++ trc
         ++ [Log Warn "Fail to create new backlog"; Unlock (blogs_mu self)])
  | body_created trs Rules rule0 b h' trc b'' h'' :
      manager_scan doesEventMatchRule d (ev inp) (st_heap σ) (st_bl σ)
        (range (order inp) (st_bl σ)).*2 = Some (trs, None) →
      deref (st_heap σ) (directive.Rules d) = Some Rules →
      index Rules 0 = Some rule0 →
      doesEventMatchRule (ev inp) rule0 (event.ConnID (ev inp)) = true →
      createNewBackLog RefToDigit copyDirective d (ev inp) (gen inp) (now inp) (st_heap σ)
        = Some (ok b, h', trc) →
      processMatchedEvent (ev inp) 0 (backLog.set_bLogs (Some self) b) h'
        = (b'', h'') →
      body_outcome self d inp σ
        {| st_heap := h'';
           st_bl := <[backLog.ID b := b'']>
                      (<[backLog.ID b := backLog.set_bLogs (Some self) b]>
                         (st_bl σ)) |}
        ([Lock (blogs_mu self)] ++ trs
         ++ [Match rule0 (event.ConnID (ev inp)) true] ++ trc
         ++ [Lock glock; MapStore self (backLog.ID b);
             Unlock (blogs_mu self);
             Call_processMatchedEvent (backLog.ID b) (ev inp) 0;
             Unlock glock]).

End Outcomes.

(** ** Concrete inputs *)

Module Examples.

Definition stage (from to portFrom portTo : string) : directiveRule :=
  {| Status := ""; From := from; To := to; PortFrom := portFrom;
     PortTo := portTo; Protocol := "TCP"; StartTime := 0 |}.

Definition resolved_stage (status from to portFrom portTo : string) (t : Z)
    : directiveRule :=
  {| Status := status; From := from; To := to; PortFrom := portFrom;
     PortTo := portTo; Protocol := "TCP"; StartTime := t |}.

(** Stage 2 refers to stage 1 and stage 3 to stage 2. *)
Definition chain : list directiveRule :=
  [stage "10.0.0.1" "ANY" "ANY" "80";
   stage ":1" ":1" ":1" ":1";
   stage ":2" ":2" "ANY" ":2"].

Definition chain_resolved : list directiveRule :=
  [resolved_stage "active" "10.0.0.1" "ANY" "ANY" "80" 0;
   resolved_stage "inactive" "10.0.0.1" "5.6.7.8" "4444" "80" 0;
   resolved_stage "inactive" "10.0.0.1" "5.6.7.8" "ANY" "80" 0].

(** Stage 2 refers forward to stage 3, which refers to stage 1. *)
Definition forward : list directiveRule :=
  [stage "10.0.0.1" "ANY" "ANY" "80";
   stage ":3" "ANY" "ANY" "ANY";
   stage ":1" "ANY" "ANY" "ANY"].

Definition template : directive.t :=
  {| directive.ID := 7; directive.Rules := Some 1%positive |}.

Definition heap_with (Rules : list directiveRule) : heap :=
  {[ 1%positive := Rules ]}.

Definition E1 : event.NormalizedEvent :=
  {| event.ConnID := 1; event.Timestamp := 100;
     event.SrcIP := "10.0.0.1"; event.DstIP := "5.6.7.8";
     event.SrcPort := 4444; event.DstPort := 80 |}.

(** A match predicate for the examples: the source address is the rule's. *)
Definition match_source (e : event.NormalizedEvent) (r : directiveRule)
    (connID : Z) : bool :=
  (From r =? event.SrcIP e)%string.

(** A stage advance that leaves the backlog as it is. *)
Definition no_advance (e : event.NormalizedEvent) (idx : Z) (b : backLog.t)
    (h : heap) : backLog.t * heap :=
  (b, h).

Definition first_event (g : result string) : input :=
  {| ev := E1; order := range_default; gen := g; now := 200 |}.

Definition start : state :=
  {| st_heap := heap_with chain; st_bl := ∅ |}.

(** The backlog the first event creates, and the heap after it. *)
Definition created : backLog.t :=
  {| backLog.ID := "b1";
     backLog.Directive :=
       {| directive.ID := 7; directive.Rules := Some 2%positive |};
     backLog.CurrentStage := 1; backLog.HighestStage := 3;
     backLog.bLogs := None |}.

Definition created_rules : list directiveRule :=
  [resolved_stage "active" "10.0.0.1" "ANY" "ANY" "80" 200;
   resolved_stage "inactive" "10.0.0.1" "5.6.7.8" "4444" "80" 0;
   resolved_stage "inactive" "10.0.0.1" "5.6.7.8" "ANY" "80" 0].

Definition created_heap : heap :=
  <[2%positive := created_rules]> (heap_with chain).

(** The state and the trace of the iteration that creates it. *)
Definition created_state : state :=
  {| st_heap := created_heap;
     st_bl := {[ "b1" := backLog.set_bLogs (Some 0) created ]} |}.

Definition created_trace : list action :=
  [Lock (blogs_mu 0);
   Match (stage "10.0.0.1" "ANY" "ANY" "80") 1 true;
   Log Info "Creating new backlog";
   Lock glock; MapStore 0 "b1"; Unlock (blogs_mu 0);
   Call_processMatchedEvent "b1" E1 0; Unlock glock].

(** The backlog once it is at stage 2, alone in its group. *)
Definition advanced : backLog.t :=
  {| backLog.ID := "b1";
     backLog.Directive :=
       {| directive.ID := 7; directive.Rules := Some 2%positive |};
     backLog.CurrentStage := 2; backLog.HighestStage := 3;
     backLog.bLogs := Some 0 |}.

Definition advanced_state : state :=
  {| st_heap := created_heap; st_bl := {[ "b1" := advanced ]} |}.

(** Two groups, the first with the backlog above, the second empty. *)
Definition groups : list backlogs.t :=
  [ {| backlogs.id := 0; backlogs.bl := {[ "b1" := created ]} |};
    {| backlogs.id := 1; backlogs.bl := ∅ |} ].

End Examples.

(** ** Three claims as the specification words them *)

(** Resolution returns for every template and event, leaves no field of a
    later stage that parses as a reference, and changes nothing when run
    again. *)
Definition resolution_total_and_idempotent : Prop :=
  ∀ d e (h : heap) Rules,
    deref h (directive.Rules d) = Some Rules →
    ∃ h' Rules',
      initBackLogRules str.RefToDigit d e h = Some h'
      ∧ deref h' (directive.Rules d) = Some Rules'
      ∧ (∀ i r', i ≠ 0 → Rules' !! i = Some r' → concrete str.RefToDigit r')
      ∧ initBackLogRules str.RefToDigit d e h' = Some h'.

(** The start time of the stage-1 rule of a new backlog is the timestamp the
    triggering event carries. *)
Definition start_time_is_event_timestamp : Prop :=
  ∀ d e bid now (h h' : heap) b tr Rules_b r0,
    createNewBackLog str.RefToDigit copyDirective_deep d e (ok bid) now h = Some (ok b, h', tr) →
    deref h' (directive.Rules (backLog.Directive b)) = Some Rules_b →
    Rules_b !! 0 = Some r0 →
    StartTime r0 = event.Timestamp e.

(** On the creation path the lock of the group is released only after the
    first event of the new backlog has been processed. *)
Definition group_lock_released_after_first_event : Prop :=
  ∀ RefToDigit copyDirective doesEventMatchRule processMatchedEvent self d inp σ σ' tr bid,
    manager_body RefToDigit copyDirective doesEventMatchRule processMatchedEvent self d inp σ
      = Some (σ', tr) →
    MapStore self bid ∈ tr →
    ∃ pre post,
      tr = pre ++ Call_processMatchedEvent bid (ev inp) 0 :: post
      ∧ (Unlock (blogs_mu self) ∉ pre)
      ∧ Unlock (blogs_mu self) ∈ post.

(** ** The removal consumer *)

(** The first goroutine of [startWatchdogTicker]: every message of the
    removal channel gets a goroutine of its own that runs [removeBackLog].
    Each removal changes the map under the lock of its group, so the
    removals take effect one after the other, in an order the scheduler
    decides: [msgs] lists them in that order. *)
Fixpoint removal_consumer (msgs : list removalChannelMsg.t)
    (allBacklogs : list backlogs.t) : option (list backlogs.t) :=
  match msgs with
  | [] => Some allBacklogs
  | msg :: msgs' =>
      '(allBacklogs, _) ← removeBackLog msg allBacklogs;
      removal_consumer msgs' allBacklogs
  end.

(** ** Read/write mutexes *)

#[global] Instance mutex_eq_dec : EqDecision mutex.
Proof. solve_decision. Defined.

#[global] Instance mutex_countable : Countable mutex.
Proof.
  refine (inj_countable'
            (λ m, match m with
                  | glock => inl (inl ())
                  | alarms_mu => inl (inr ())
                  | blogs_mu p => inr (inl p)
                  | backLog_mu bid => inr (inr bid)
                  end)
            (λ x, match x with
                  | inl (inl ()) => glock
                  | inl (inr ()) => alarms_mu
                  | inr (inl p) => blogs_mu p
                  | inr (inr bid) => backLog_mu bid
                  end) _).
  by intros [].
Defined.

(** A [sync.RWMutex] that is not free is held by one writer or by readers:
    [Read n] stands for [n + 1] of them. *)
Inductive mstate := Written | Read (more : nat).

#[global] Instance mstate_eq_dec : EqDecision mstate.
Proof. solve_decision. Defined.

(** The mutexes that are held; a mutex that is absent is free. *)
Abbreviation locks := (gmap mutex mstate).

(** Whether a goroutine can take the action now.  [Lock] waits until the
    mutex is free, [RLock] until no writer holds it; unlocking a mutex that
    is not locked that way is a fatal error, so it cannot be taken either. *)
Definition enabled (L : locks) (a : action) : bool :=
  match a with
  | Lock m => match L !! m with None => true | Some _ => false end
  | RLock m => match L !! m with Some Written => false | _ => true end
  | Unlock m => match L !! m with Some Written => true | _ => false end
  | RUnlock m => match L !! m with Some (Read _) => true | _ => false end
  | _ => true
  end.

(** The locks after the action. *)
Definition perform (L : locks) (a : action) : locks :=
  match a with
  | Lock m => <[m := Written]> L
  | Unlock m => delete m L
  | RLock m =>
      match L !! m with
      | Some (Read n) => <[m := Read (S n)]> L
      | _ => <[m := Read 0]> L
      end
  | RUnlock m =>
      match L !! m with
      | Some (Read (S n)) => <[m := Read n]> L
      | _ => delete m L
      end
  | _ => L
  end.

(** A goroutine running its actions alone from the locks [L]; [ok] is what
    is asked of every action besides. *)
Fixpoint run (ok : locks → action → bool) (L : locks) (tr : list action)
    : option locks :=
  match tr with
  | [] => Some L
  | a :: tr' => if enabled L a && ok L a then run ok (perform L a) tr' else None
  end.

Definition any_action (L : locks) (a : action) : bool := true.

(** An action that is none of the four lock operations. *)
Definition plain (a : action) : bool :=
  match a with
  | Lock _ | Unlock _ | RLock _ | RUnlock _ => false
  | _ => true
  end.

(** What is asked of the loop of group [self], with the locks it holds
    itself: it tests rules and dispatches under the lock of its group, stores
    into its own map only, under both locks, and runs the first advance under
    the global lock alone; it deletes nothing and checks no expiry. *)
Definition manager_ok (self : nat) (L : locks) (a : action) : bool :=
  match a with
  | Match _ _ _ | Go_processMatchedEvent _ _ _ =>
      bool_decide (L !! blogs_mu self = Some Written)
  | MapStore p _ =>
      bool_decide (p = self ∧ L !! blogs_mu self = Some Written
                   ∧ L !! glock = Some Written)
  | Call_processMatchedEvent _ _ _ =>
      bool_decide (L !! blogs_mu self = None ∧ L !! glock = Some Written)
  | MapDelete _ _ | Call_checkExpired _ _ => false
  | _ => true
  end.

(** What is asked of the sweep: it takes no write lock, changes no map,
    advances nothing, and calls [checkExpired] on a backlog of group [p] while
    it reads both the global lock and the lock of group [p]. *)
Definition sweep_ok (L : locks) (a : action) : bool :=
  match a with
  | Lock _ | Unlock _ | MapStore _ _ | MapDelete _ _
  | Go_processMatchedEvent _ _ _ | Call_processMatchedEvent _ _ _ => false
  | Call_checkExpired p _ =>
      bool_decide (L !! blogs_mu p = Some (Read 0) ∧ L !! glock = Some (Read 0))
  | _ => true
  end.

(** Two goroutines and the locks: either takes its next action when it
    can. *)
Inductive step : locks * list action * list action
                 → locks * list action * list action → Prop :=
  | step_left L a ta tb :
      enabled L a = true → step (L, a :: ta, tb) (perform L a, ta, tb)
  | step_right L ta b tb :
      enabled L b = true → step (L, ta, b :: tb) (perform L b, ta, tb).

(** Neither goroutine has finished and neither can take its next action. *)
Definition deadlocked (c : locks * list action * list action) : Prop :=
  c.1.2 ≠ [] ∧ c.2 ≠ [] ∧ ∀ c', ¬ step c c'.

(** ** The map of a group in order *)

(** Every backlog of the map is stored under its own identifier and belongs
    to the directive [d] of the group. *)
Definition group_inv (d : directive.t) (bl : gmap string backLog.t) : Prop :=
  ∀ k v, bl !! k = Some v →
    backLog.ID v = k
    ∧ directive.ID (backLog.Directive v) = directive.ID d.

(** ** More concrete inputs *)

Module Cases.

(** A state whose directive has no rule. *)
Definition bare : state :=
  {| st_heap := Examples.heap_with []; st_bl := ∅ |}.

(** The backlog of the examples with a CurrentStage past its three rules. *)
Definition overrun : backLog.t :=
  {| backLog.ID := "b1";
     backLog.Directive :=
       {| directive.ID := 7; directive.Rules := Some 2%positive |};
     backLog.CurrentStage := 5; backLog.HighestStage := 3;
     backLog.bLogs := Some 0 |}.

Definition overrun_state : state :=
  {| st_heap := Examples.created_heap; st_bl := {[ "b1" := overrun ]} |}.

(** A second backlog of the directive, still at stage 1. *)
Definition waiting : backLog.t :=
  {| backLog.ID := "b0";
     backLog.Directive :=
       {| directive.ID := 7; directive.Rules := Some 2%positive |};
     backLog.CurrentStage := 1; backLog.HighestStage := 3;
     backLog.bLogs := Some 0 |}.

Definition two_state : state :=
  {| st_heap := Examples.created_heap;
     st_bl := <["b0" := waiting]> {[ "b1" := Examples.advanced ]} |}.

(** [range] yielding the entries in the reverse of the default order. *)
Definition range_reversed : range_order :=
  {| range := λ m, reverse (map_to_list m);
     range_perm := λ m, reverse_Permutation (map_to_list m) |}.

Definition event_in (o : range_order) : input :=
  {| ev := Examples.E1; order := o; gen := ok "b2"; now := 200 |}.

Definition remove_b1 : removalChannelMsg.t :=
  {| removalChannelMsg.blogs := 0; removalChannelMsg.ID := "b1" |}.

Definition remove_other : removalChannelMsg.t :=
  {| removalChannelMsg.blogs := 1; removalChannelMsg.ID := "b7" |}.

End Cases.

(** * Proofs *)

Section Proofs.

Variable RefToDigit : string → option Z.
Variable copyDirective :
  directive.t → directive.t → event.NormalizedEvent → heap
  → option (directive.t * heap).
Variable doesEventMatchRule : event.NormalizedEvent → directiveRule → Z → bool.
Variable processMatchedEvent :
  event.NormalizedEvent → Z → backLog.t → heap → backLog.t * heap.



Lemma assign_Some (Rules : list directiveRule) i f r :
  Rules !! i = Some r → assign Rules i f = Some (<[i := f r]> Rules).
Proof. intros H. unfold assign. by rewrite H. Qed.

Lemma assign_inv (Rules Rules' : list directiveRule) i f :
  assign Rules i f = Some Rules' →
  ∃ r, Rules !! i = Some r ∧ Rules' = <[i := f r]> Rules.
Proof.
  unfold assign. destruct (Rules !! i) as [r|] eqn:H; simpl; [|done].
  intros [= <-]. eauto.
Qed.

Lemma assign_insert (Rules : list directiveRule) i f r :
  i < length Rules →
  assign (<[i := r]> Rules) i f = Some (<[i := f r]> Rules).
Proof.
  intros Hi. unfold assign. rewrite list_lookup_insert_eq by done. simpl.
  by rewrite list_insert_insert_eq.
Qed.

Lemma index_Some (Rules : list directiveRule) k r :
  index Rules k = Some r ↔ (0 ≤ k)%Z ∧ Rules !! Z.to_nat k = Some r.
Proof.
  unfold index. destruct (Z.ltb_spec k 0) as [Hk|Hk].
  - split; [done | intros [? _]; lia].
  - split; [intros ?; split; [lia | done] | by intros [_ ?]].
Qed.

Lemma index_is_Some (Rules : list directiveRule) k :
  is_Some (index Rules k) ↔ (0 ≤ k < Z.of_nat (length Rules))%Z.
Proof.
  unfold index. destruct (Z.ltb_spec k 0).
  - split; [intros [? [=]] | lia].
  - rewrite lookup_lt_is_Some. lia.
Qed.

(** Reading one field through an element whose field is unchanged. *)
Lemma index_insert_get {A} (g : directiveRule → A) (Rules : list directiveRule)
    i r0 r1 k :
  Rules !! i = Some r0 → g r1 = g r0 →
  g <$> index (<[i := r1]> Rules) k = g <$> index Rules k.
Proof.
  intros Hi Hg. unfold index. destruct (k <? 0)%Z; [done|].
  destruct (decide (i = Z.to_nat k)) as [<-|Hne].
  - rewrite list_lookup_insert_eq by (by eapply lookup_lt_Some).
    rewrite Hi. simpl. by rewrite Hg.
  - by rewrite list_lookup_insert_ne.
Qed.


Lemma pick_ip {A} (ref ev : string) (k : string → A) :
  (if negb (ref =? "ANY")%string && negb (ref =? "HOME_NET")%string
      && negb (ref =? "!HOME_NET")%string
   then k ref else k ev)
  = k (if (ref =? "ANY")%string || (ref =? "HOME_NET")%string
          || (ref =? "!HOME_NET")%string then ev else ref).
Proof.
  by destruct (ref =? "ANY")%string, (ref =? "HOME_NET")%string,
       (ref =? "!HOME_NET")%string.
Qed.

Lemma pick_port {A} (ref ev : string) (k : string → A) :
  (if negb (ref =? "ANY")%string then k ref else k ev)
  = k (if (ref =? "ANY")%string then ev else ref).
Proof. by destruct (ref =? "ANY")%string. Qed.

Lemma body_first e (Rules : list directiveRule) r :
  Rules !! 0 = Some r →
  initBackLogRules_body RefToDigit e Rules 0
  = Some (<[0 := set_Status "active" r]> Rules).
Proof. intros H. unfold initBackLogRules_body. simpl. by apply assign_Some. Qed.

Ltac block_tac Hr Hg Hlt :=
  unfold field_value; simpl get;
  match goal with |- context [RefToDigit ?s] =>
    destruct (RefToDigit s) as [K|]; simpl end;
  [ match goal with |- context [?g <$> index (<[?i := ?rc]> ?Rules) ?k] =>
      rewrite (index_insert_get g Rules i _ rc k Hr Hg);
      destruct (index Rules k) as [x|]; simpl; [|done]
    end;
    unfold resolved; simpl is_wildcard;
    first [ rewrite (pick_ip _ _ (λ s, assign _ _ (_ s)))
          | rewrite (pick_port _ _ (λ s, assign _ _ (_ s))) ];
    by rewrite assign_insert
  | do 2 f_equal;
    match goal with rc : directiveRule |- _ =>
      destruct rc; simpl in *; by subst end ].

Lemma block_From e (Rules : list directiveRule) i r rc :
  Rules !! i = Some r → From rc = From r →
  match RefToDigit (From r) with
  | Some v =>
      ref ← From <$> index (<[i := rc]> Rules) (int_sub v 1);
      if negb (ref =? "ANY")%string && negb (ref =? "HOME_NET")%string
         && negb (ref =? "!HOME_NET")%string
      then assign (<[i := rc]> Rules) i (set_From ref)
      else assign (<[i := rc]> Rules) i (set_From (event.SrcIP e))
  | None => Some (<[i := rc]> Rules)
  end
  = (a ← field_value RefToDigit F_From e Rules r; Some (<[i := set_From a rc]> Rules)).
Proof.
  intros Hr Hg. pose proof (lookup_lt_Some _ _ _ Hr) as Hlt.
  block_tac Hr Hg Hlt.
Qed.

Lemma block_To e (Rules : list directiveRule) i r rc :
  Rules !! i = Some r → To rc = To r →
  match RefToDigit (To r) with
  | Some v =>
      ref ← To <$> index (<[i := rc]> Rules) (int_sub v 1);
      if negb (ref =? "ANY")%string && negb (ref =? "HOME_NET")%string
         && negb (ref =? "!HOME_NET")%string
      then assign (<[i := rc]> Rules) i (set_To ref)
      else assign (<[i := rc]> Rules) i (set_To (event.DstIP e))
  | None => Some (<[i := rc]> Rules)
  end
  = (a ← field_value RefToDigit F_To e Rules r; Some (<[i := set_To a rc]> Rules)).
Proof.
  intros Hr Hg. pose proof (lookup_lt_Some _ _ _ Hr) as Hlt.
  block_tac Hr Hg Hlt.
Qed.

Lemma block_PortFrom e (Rules : list directiveRule) i r rc :
  Rules !! i = Some r → PortFrom rc = PortFrom r →
  match RefToDigit (PortFrom r) with
  | Some v =>
      ref ← PortFrom <$> index (<[i := rc]> Rules) (int_sub v 1);
      if negb (ref =? "ANY")%string
      then assign (<[i := rc]> Rules) i (set_PortFrom ref)
      else assign (<[i := rc]> Rules) i
             (set_PortFrom (strconv.Itoa (event.SrcPort e)))
  | None => Some (<[i := rc]> Rules)
  end
  = (a ← field_value RefToDigit F_PortFrom e Rules r;
     Some (<[i := set_PortFrom a rc]> Rules)).
Proof.
  intros Hr Hg. pose proof (lookup_lt_Some _ _ _ Hr) as Hlt.
  block_tac Hr Hg Hlt.
Qed.

Lemma block_PortTo e (Rules : list directiveRule) i r rc :
  Rules !! i = Some r → PortTo rc = PortTo r →
  match RefToDigit (PortTo r) with
  | Some v =>
      ref ← PortTo <$> index (<[i := rc]> Rules) (int_sub v 1);
      if negb (ref =? "ANY")%string
      then assign (<[i := rc]> Rules) i (set_PortTo ref)
      else assign (<[i := rc]> Rules) i
             (set_PortTo (strconv.Itoa (event.DstPort e)))
  | None => Some (<[i := rc]> Rules)
  end
  = (a ← field_value RefToDigit F_PortTo e Rules r;
     Some (<[i := set_PortTo a rc]> Rules)).
Proof.
  intros Hr Hg. pose proof (lookup_lt_Some _ _ _ Hr) as Hlt.
  block_tac Hr Hg Hlt.
Qed.

Lemma body_later e (Rules : list directiveRule) i r :
  i ≠ 0 → Rules !! i = Some r →
  initBackLogRules_body RefToDigit e Rules i
  = (a ← field_value RefToDigit F_From e Rules r;
     b ← field_value RefToDigit F_To e Rules r;
     c ← field_value RefToDigit F_PortFrom e Rules r;
     d ← field_value RefToDigit F_PortTo e Rules r;
     Some (<[i := set_PortTo d (set_PortFrom c (set_To b (set_From a
                    (set_Status "inactive" r))))]> Rules)).
Proof.
  intros Hi Hr. pose proof (lookup_lt_Some _ _ _ Hr) as Hlt.
  unfold initBackLogRules_body. destruct (decide (i = 0)) as [|_]; [done|].
  rewrite (assign_Some _ _ _ _ Hr). simpl.
  rewrite list_lookup_insert_eq by done. simpl.
  rewrite (block_From e Rules i r) by done.
  destruct (field_value RefToDigit F_From e Rules r) as [a|]; simpl; [|done].
  rewrite list_lookup_insert_eq by done. simpl.
  rewrite (block_To e Rules i r) by done.
  destruct (field_value RefToDigit F_To e Rules r) as [b|]; simpl; [|done].
  rewrite list_lookup_insert_eq by done. simpl.
  rewrite (block_PortFrom e Rules i r) by done.
  destruct (field_value RefToDigit F_PortFrom e Rules r) as [c|]; simpl; [|done].
  rewrite list_lookup_insert_eq by done. simpl.
  rewrite (block_PortTo e Rules i r) by done.
  by destruct (field_value RefToDigit F_PortTo e Rules r) as [d|].
Qed.

Lemma body_None e (Rules : list directiveRule) i :
  Rules !! i = None → initBackLogRules_body RefToDigit e Rules i = None.
Proof.
  intros H. unfold initBackLogRules_body, assign. rewrite H.
  by destruct (decide (i = 0)).
Qed.

Lemma field_value_rewritten f e seen r r' :
  field_value RefToDigit f e seen r = Some (get f r') ↔ field_rewritten RefToDigit f e seen r r'.
Proof.
  unfold field_value, field_rewritten, resolved.
  destruct (RefToDigit (get f r)) as [K|].
  - destruct (index seen (int_sub K 1)) as [x|]; simpl.
    + split; [intros [= H]; eauto | by intros (? & [= <-] & ->)].
    + split; [done | by intros (? & ? & _)].
  - split; [by intros [= ->] | by intros ->].
Qed.

(** One stage of the loop: only the rule at [i] changes, as the words of the
    specification say, reading the referenced stage in the current rules. *)
Lemma body_spec e (Rules Rules' : list directiveRule) i :
  initBackLogRules_body RefToDigit e Rules i = Some Rules' →
  ∃ r r', Rules !! i = Some r ∧ Rules' = <[i := r']> Rules
          ∧ rule_rewritten RefToDigit e i Rules r r'.
Proof.
  destruct (Rules !! i) as [r|] eqn:Hr; [|by rewrite body_None].
  destruct (decide (i = 0)) as [->|Hi].
  - rewrite (body_first _ _ _ Hr). intros [= <-].
    exists r, (set_Status "active" r). by repeat split.
  - rewrite (body_later _ _ _ _ Hi Hr).
    destruct (field_value RefToDigit F_From e Rules r) as [a|] eqn:Ha; simpl; [|done].
    destruct (field_value RefToDigit F_To e Rules r) as [b|] eqn:Hb; simpl; [|done].
    destruct (field_value RefToDigit F_PortFrom e Rules r) as [c|] eqn:Hc; simpl; [|done].
    destruct (field_value RefToDigit F_PortTo e Rules r) as [d|] eqn:Hd; simpl; [|done].
    intros [= <-]. eexists r, _. split; [done|]. split; [done|].
    unfold rule_rewritten. simpl. destruct (decide (i = 0)); [done|].
    repeat split. intros []; by apply field_value_rewritten.
Qed.

Lemma body_is_Some e (Rules : list directiveRule) i r :
  Rules !! i = Some r →
  (i ≠ 0 → ∀ f K, RefToDigit (get f r) = Some K →
     (0 ≤ int_sub K 1 < Z.of_nat (length Rules))%Z) →
  is_Some (initBackLogRules_body RefToDigit e Rules i).
Proof.
  intros Hr Hin. destruct (decide (i = 0)) as [->|Hi].
  - rewrite (body_first _ _ _ Hr). eauto.
  - rewrite (body_later _ _ _ _ Hi Hr).
    assert (∀ f, is_Some (field_value RefToDigit f e Rules r)) as Hv.
    { intros f. unfold field_value.
      destruct (RefToDigit (get f r)) as [K|] eqn:HK; [|eauto].
      apply fmap_is_Some, index_is_Some. by eapply Hin. }
    destruct (Hv F_From) as [a ->], (Hv F_To) as [b ->],
      (Hv F_PortFrom) as [c ->], (Hv F_PortTo) as [d ->]. simpl. eauto.
Qed.

Lemma take_agree {A} (l1 l2 : list A) k :
  (∀ j, j < k → l1 !! j = l2 !! j) → take k l1 = take k l2.
Proof.
  intros H. apply list_eq. intros j. destruct (decide (j < k)).
  - rewrite !lookup_take_lt by done. by apply H.
  - rewrite !lookup_take_ge by lia. done.
Qed.

Lemma for_range_spec e n : ∀ k (Rules Rules' : list directiveRule),
  for_range (initBackLogRules_body RefToDigit e) (seq k n) Rules = Some Rules' →
  k + n = length Rules →
  length Rules' = length Rules
  ∧ (∀ j, j < k → Rules' !! j = Rules !! j)
  ∧ ∀ j r, k ≤ j → Rules !! j = Some r →
      ∃ r', Rules' !! j = Some r'
            ∧ rule_rewritten RefToDigit e j (view j Rules' Rules) r r'.
Proof.
  induction n as [|n IH]; intros k Rules Rules'; simpl.
  - intros [= <-] Hlen. split; [done|]. split; [done|].
    intros j r Hj Hr. apply lookup_lt_Some in Hr. lia.
  - destruct (initBackLogRules_body RefToDigit e Rules k) as [Rules1|] eqn:Hb;
      simpl; [|done].
    intros Hfor Hlen.
    destruct (body_spec _ _ _ _ Hb) as (r0 & r1 & Hr0 & -> & Hrw).
    destruct (IH _ _ _ Hfor) as (Hl & Hlow & Hhigh).
    { rewrite length_insert. lia. }
    rewrite length_insert in Hl.
    assert (∀ j, j < k → Rules' !! j = Rules !! j) as Hlow'.
    { intros j Hj. rewrite Hlow by lia. apply list_lookup_insert_ne. lia. }
    split; [done|]. split; [done|].
    intros j r Hj Hr. destruct (decide (j = k)) as [->|Hne].
    + exists r1. rewrite Hlow by lia.
      rewrite list_lookup_insert_eq by (by eapply lookup_lt_Some).
      split; [done|]. replace r with r0 by congruence.
      unfold view. rewrite (take_agree Rules' Rules k Hlow').
      by rewrite take_drop.
    + destruct (Hhigh j r) as (r' & Hr' & Hrw'); [lia| |].
      { rewrite list_lookup_insert_ne by lia. done. }
      exists r'. split; [done|]. unfold view in *.
      by rewrite drop_insert_lt in Hrw' by lia.
Qed.

Lemma initBackLogRules_range_spec e (Rules Rules' : list directiveRule) :
  initBackLogRules_range RefToDigit e Rules = Some Rules' →
  rules_rewritten RefToDigit e Rules Rules'.
Proof.
  intros H. destruct (for_range_spec _ _ _ _ _ H) as (Hl & _ & Hh); [done|].
  split; [done|]. intros i r Hr. apply Hh; [lia|done].
Qed.

Lemma for_range_is_Some e n : ∀ k (Rules : list directiveRule),
  k + n = length Rules →
  (∀ j r f K, k ≤ j → Rules !! j = Some r → j ≠ 0 →
     RefToDigit (get f r) = Some K →
     (0 ≤ int_sub K 1 < Z.of_nat (length Rules))%Z) →
  is_Some (for_range (initBackLogRules_body RefToDigit e) (seq k n) Rules).
Proof.
  induction n as [|n IH]; intros k Rules Hlen Hin; simpl; [eauto|].
  destruct (lookup_lt_is_Some_2 Rules k) as [r Hr]; [lia|].
  destruct (body_is_Some e Rules k r Hr) as [Rules1 Hb].
  { intros Hk f K HK. by eapply Hin. }
  rewrite Hb. simpl.
  destruct (body_spec _ _ _ _ Hb) as (r0 & r1 & Hr0 & -> & _).
  apply IH.
  - rewrite length_insert. lia.
  - intros j rj f K Hj Hrj Hj0 HK. rewrite length_insert.
    rewrite list_lookup_insert_ne in Hrj by lia.
    eapply (Hin j); [lia|done..].
Qed.

Lemma initBackLogRules_range_is_Some e (Rules : list directiveRule) :
  refs_in_range RefToDigit Rules →
  is_Some (initBackLogRules_range RefToDigit e Rules).
Proof.
  intros H. apply for_range_is_Some; [done|].
  intros j r f K _ Hr Hj HK. by eapply H.
Qed.

(** *** The heap-level function *)

Lemma in_place_Some l f (h h' : heap) :
  in_place (Some l) f h = Some h' ↔
  ∃ Rules Rules', h !! l = Some Rules ∧ f Rules = Some Rules'
                  ∧ h' = <[l := Rules']> h.
Proof.
  unfold in_place. destruct (h !! l) as [Rules|]; simpl.
  - destruct (f Rules) as [Rules'|] eqn:Hf; simpl.
    + split; [intros [= <-]; eauto | ]. intros (? & ? & [= <-] & Hf' & ->).
      by rewrite Hf in Hf'; simplify_eq.
    + split; [done|]. intros (? & ? & [= <-] & Hf' & _). congruence.
  - split; [done|]. by intros (? & ? & ? & _).
Qed.

Lemma initBackLogRules_range_nil e :
  initBackLogRules_range RefToDigit e [] = Some [].
Proof. done. Qed.

Lemma initBackLogRules_inv d e (h h' : heap) Rules :
  deref h (directive.Rules d) = Some Rules →
  initBackLogRules RefToDigit d e h = Some h' →
  ∃ Rules', initBackLogRules_range RefToDigit e Rules = Some Rules'
            ∧ deref h' (directive.Rules d) = Some Rules'
            ∧ h' = match directive.Rules d with
                   | Some l => <[l := Rules']> h
                   | None => h
                   end.
Proof.
  unfold initBackLogRules, deref. destruct (directive.Rules d) as [l|].
  - intros Hl (R & R' & HR & Hf & ->)%in_place_Some. simplify_eq.
    exists R'. by rewrite lookup_insert_eq.
  - intros [= <-]. simpl. intros [= <-]. by exists [].
Qed.

Lemma initBackLogRules_intro d e (h : heap) Rules Rules' :
  deref h (directive.Rules d) = Some Rules →
  initBackLogRules_range RefToDigit e Rules = Some Rules' →
  initBackLogRules RefToDigit d e h
  = Some match directive.Rules d with
         | Some l => <[l := Rules']> h
         | None => h
         end.
Proof.
  unfold initBackLogRules, deref, in_place.
  destruct (directive.Rules d) as [l|].
  - intros Hl Hf. rewrite Hl. simpl. by rewrite Hf.
  - intros [= <-]. by rewrite initBackLogRules_range_nil.
Qed.

Lemma view_lookup_lt i j (Rules' Rules : list directiveRule) :
  j < i → i ≤ length Rules' → view i Rules' Rules !! j = Rules' !! j.
Proof.
  intros Hj Hi. unfold view.
  rewrite lookup_app_l by (rewrite length_take; lia).
  by rewrite lookup_take_lt.
Qed.

Lemma view_lookup_ge i j (Rules' Rules : list directiveRule) :
  i ≤ j → i ≤ length Rules' → view i Rules' Rules !! j = Rules !! j.
Proof.
  intros Hj Hi. unfold view.
  rewrite lookup_app_r by (rewrite length_take; lia).
  rewrite length_take, lookup_drop. f_equal. lia.
Qed.

Lemma resolved_idemp f e s : resolved f e (resolved f e s) = resolved f e s.
Proof.
  unfold resolved. destruct (is_wildcard f s) eqn:Hs; [|by rewrite Hs].
  by destruct (is_wildcard f (of_event f e)).
Qed.

(** C2: on the directive copy of a backlog, [initBackLogRules] leaves stage 1
    as authored and rewrites each of From, To, PortFrom and PortTo of every
    later stage that parses as a reference to stage K: the referenced stage's
    value is copied unless it is a wildcard (ANY, HOME_NET, !HOME_NET for an
    address, ANY for a port), in which case the triggering event's source or
    destination address, or its stringified source or destination port, is
    taken; a field that does not parse as a reference is kept.  The function
    returns whenever every reference names a stage of the directive. *)
Theorem initBackLogRules_rewrites d e (h : heap) Rules :
  deref h (directive.Rules d) = Some Rules →
  (refs_in_range RefToDigit Rules →
   is_Some (initBackLogRules RefToDigit d e h))
  ∧ ∀ h', initBackLogRules RefToDigit d e h = Some h' →
      ∃ Rules', deref h' (directive.Rules d) = Some Rules'
                ∧ rules_rewritten RefToDigit e Rules Rules'.
Proof.
  intros Hd. split.
  - intros Hin.
    destruct (initBackLogRules_range_is_Some e Rules Hin) as [Rules' HR].
    rewrite (initBackLogRules_intro _ _ _ _ _ Hd HR). eauto.
  - intros h' Hh'.
    destruct (initBackLogRules_inv _ _ _ _ _ Hd Hh') as (Rules' & HR & Hd' & _).
    exists Rules'. split; [done|]. by apply initBackLogRules_range_spec.
Qed.

(** C10: the stages are rewritten in increasing index order on the copy
    itself, so a reference of stage index [i] is looked up in the copy as the
    loop has left it so far.  A reference to an earlier stage reads that
    stage's rewritten value, and when that stage's template text was itself a
    reference the field receives exactly the value that stage ended with; a
    reference to the stage itself or to a later one reads the template's
    text, which is copied as it stands unless it is a wildcard. *)
Theorem initBackLogRules_reads_copy d e (h h' : heap) Rules Rules' :
  deref h (directive.Rules d) = Some Rules →
  initBackLogRules RefToDigit d e h = Some h' →
  deref h' (directive.Rules d) = Some Rules' →
  ∀ i r r' f K,
    i ≠ 0 → Rules !! i = Some r → Rules' !! i = Some r' →
    RefToDigit (get f r) = Some K →
    let j := int_sub K 1 in
    (∃ ref, index (view i Rules' Rules) j = Some ref
            ∧ get f r' = resolved f e (get f ref))
    ∧ ((0 ≤ j < Z.of_nat i)%Z →
       ∃ rj', Rules' !! Z.to_nat j = Some rj'
              ∧ get f r' = resolved f e (get f rj')
              ∧ ∀ rj, (0 < j)%Z → Rules !! Z.to_nat j = Some rj →
                      is_Some (RefToDigit (get f rj)) →
                      get f r' = get f rj')
    ∧ ((Z.of_nat i ≤ j)%Z →
       ∃ rj, Rules !! Z.to_nat j = Some rj
             ∧ get f r' = resolved f e (get f rj)
             ∧ (is_wildcard f (get f rj) = false → get f r' = get f rj)).
Proof.
  intros Hd Hh' Hd' i r r' f K Hi Hr Hr' HK j.
  destruct (initBackLogRules_inv _ _ _ _ _ Hd Hh') as (R' & HR & Hd'' & _).
  assert (R' = Rules') as -> by congruence.
  destruct (initBackLogRules_range_spec _ _ _ HR) as [Hlen Hall].
  pose proof (lookup_lt_Some _ _ _ Hr') as Hlt.
  destruct (Hall i r Hr) as (r1 & Hr1 & _ & _ & Hrw).
  assert (r1 = r') as -> by congruence.
  destruct (decide (i = 0)) as [|_]; [done|]. destruct Hrw as [_ Hrw].
  specialize (Hrw f). unfold field_rewritten in Hrw. rewrite HK in Hrw.
  destruct Hrw as (ref & Href & Hget). fold j in Href.
  assert (get f r' = resolved f e (get f ref)) as Hres by done.
  apply index_Some in Href as [Hj0 Href].
  split; [exists ref; split; [by apply index_Some|done]|]. split.
  - intros [_ Hji]. rewrite view_lookup_lt in Href by lia.
    exists ref. split; [done|]. split; [done|].
    intros rj Hjpos Hrj [K' HK'].
    destruct (Hall _ rj Hrj) as (rj' & Hrj' & _ & _ & Hrwj).
    assert (rj' = ref) as -> by congruence.
    destruct (decide (Z.to_nat j = 0)) as [|_]; [lia|].
    destruct Hrwj as [_ Hrwj]. specialize (Hrwj f).
    unfold field_rewritten in Hrwj. rewrite HK' in Hrwj.
    destruct Hrwj as (x & _ & Hx). rewrite Hres.
    change (get f ref = resolved f e (get f x)) in Hx.
    rewrite Hx. apply resolved_idemp.
  - intros Hij. rewrite view_lookup_ge in Href by lia.
    exists ref. split; [done|]. split; [done|].
    intros Hw. rewrite Hres. unfold resolved. by rewrite Hw.
Qed.

(** *** Backward references: the result is concrete and a fixed point *)

Lemma rewritten_concrete e (Rules Rules' : list directiveRule) :
  rules_rewritten RefToDigit e Rules Rules' →
  refs_backward RefToDigit Rules →
  (∀ r0, Rules !! 0 = Some r0 → concrete RefToDigit r0) →
  (∀ f, RefToDigit (of_event f e) = None) →
  ∀ i r', Rules' !! i = Some r' → concrete RefToDigit r'.
Proof.
  intros [Hlen Hall] Hback H0 Hev i.
  induction i as [i IH] using lt_wf_ind. intros r' Hr' f.
  destruct (lookup_lt_is_Some_2 Rules i) as [r Hr].
  { rewrite <- Hlen. by eapply lookup_lt_Some. }
  destruct (Hall i r Hr) as (r1 & Hr1 & _ & _ & Hrw).
  assert (r1 = r') as -> by congruence.
  destruct (decide (i = 0)) as [->|Hi].
  - destruct Hrw as [_ Hrw]. rewrite Hrw. by apply H0.
  - destruct Hrw as [_ Hrw]. specialize (Hrw f).
    unfold field_rewritten in Hrw.
    destruct (RefToDigit (get f r)) as [K|] eqn:HK; [|congruence].
    destruct Hrw as (ref & Href & ->).
    destruct (is_wildcard f (get f ref)); [by apply Hev|].
    apply index_Some in Href as [Hj0 Href].
    pose proof (Hback i r f K Hr Hi HK) as Hj.
    rewrite view_lookup_lt in Href
      by (try lia; apply lookup_lt_Some in Hr'; lia).
    apply (IH (Z.to_nat (int_sub K 1))); [lia|done].
Qed.

Lemma body_fixed e (Rules : list directiveRule) i r :
  Rules !! i = Some r → concrete RefToDigit r →
  Status r = (if decide (i = 0) then "active" else "inactive") →
  initBackLogRules_body RefToDigit e Rules i = Some Rules.
Proof.
  intros Hr Hc Hs. destruct (decide (i = 0)) as [->|Hi].
  - rewrite (body_first _ _ _ Hr). f_equal. apply list_insert_id.
    rewrite Hr. f_equal. destruct r; simpl in *; by subst.
  - rewrite (body_later _ _ _ _ Hi Hr). unfold field_value.
    rewrite !Hc. simpl. f_equal. apply list_insert_id.
    rewrite Hr. f_equal. destruct r; simpl in *; by subst.
Qed.

Lemma for_range_fixed body (idxs : list nat) (Rules : list directiveRule) :
  (∀ i, i ∈ idxs → body Rules i = Some Rules) →
  for_range body idxs Rules = Some Rules.
Proof.
  induction idxs as [|i idxs IH]; intros H; simpl; [done|].
  rewrite H by apply list_elem_of_here. simpl.
  apply IH. intros j Hj. apply H. by apply list_elem_of_further.
Qed.

Lemma rewritten_fixed e (Rules Rules' : list directiveRule) :
  rules_rewritten RefToDigit e Rules Rules' →
  (∀ i r', Rules' !! i = Some r' → concrete RefToDigit r') →
  initBackLogRules_range RefToDigit e Rules' = Some Rules'.
Proof.
  intros [Hlen Hall] Hc. apply for_range_fixed. intros i Hi.
  apply elem_of_seq in Hi as [_ Hi]. simpl in Hi.
  destruct (lookup_lt_is_Some_2 Rules' i) as [r' Hr']; [done|].
  destruct (lookup_lt_is_Some_2 Rules i) as [r Hr]; [lia|].
  destruct (Hall i r Hr) as (r1 & Hr1 & _ & _ & Hrw).
  assert (r1 = r') as -> by congruence.
  apply (body_fixed e Rules' i r' Hr'); [by eapply Hc|].
  by destruct (decide (i = 0)); destruct Hrw.
Qed.

(** *** Backlog creation *)

Lemma deref_fresh (h : heap) s Rules :
  deref h s = Some Rules → s ≠ Some (fresh (dom h)).
Proof.
  intros Hd ->. simpl in Hd.
  pose proof (is_fresh (dom h)) as Hf. apply not_elem_of_dom in Hf. congruence.
Qed.

Lemma deref_insert_ne (h : heap) s l Rules :
  s ≠ Some l → deref (<[l := Rules]> h) s = deref h s.
Proof.
  intros Hs. destruct s as [l'|]; simpl; [|done].
  apply lookup_insert_ne. congruence.
Qed.

Lemma createNewBackLog_ok d e bid now (h h' : heap) res trc :
  createNewBackLog RefToDigit copyDirective d e (ok bid) now h
    = Some (res, h', trc) →
  (∃ b, res = ok b) ∧ trc = [Log Info "Creating new backlog"].
Proof.
  unfold createNewBackLog.
  destruct (copyDirective _ _ _ _) as [[bD h1]|]; simpl; [|done].
  destruct (initBackLogRules _ _ _ _) as [h2|]; simpl; [|done].
  destruct (in_place _ _ _) as [h3|]; simpl; [|done].
  destruct (deref _ _) as [Rules|]; simpl; [|done].
  intros [= <- <- <-]. eauto.
Qed.

Lemma createNewBackLog_deep_inv d e bid now (h h' : heap) res tr :
  createNewBackLog RefToDigit copyDirective_deep d e (ok bid) now h = Some (res, h', tr) →
  ∃ Rules Rules1 r0,
    deref h (directive.Rules d) = Some Rules
    ∧ initBackLogRules_range RefToDigit e Rules = Some Rules1
    ∧ Rules1 !! 0 = Some r0
    ∧ h' = <[fresh (dom h) := <[0 := set_StartTime now r0]> Rules1]> h
    ∧ res = ok {| backLog.ID := bid;
                  backLog.Directive :=
                    {| directive.ID := directive.ID d;
                       directive.Rules := Some (fresh (dom h)) |};
                  backLog.CurrentStage := 1;
                  backLog.HighestStage := Z.of_nat (length Rules);
                  backLog.bLogs := None |}
    ∧ tr = [Log Info "Creating new backlog"].
Proof.
  unfold createNewBackLog, copyDirective_deep.
  destruct (deref h (directive.Rules d)) as [Rules|] eqn:Hd; simpl; [|done].
  set (l := fresh (dom h)).
  destruct (initBackLogRules RefToDigit _ e (<[l:=Rules]> h)) as [h1|] eqn:H1;
    simpl; [|done].
  apply initBackLogRules_inv with (Rules := Rules) in H1
    as (Rules1 & HR1 & _ & ->); [|by simpl; rewrite lookup_insert_eq].
  simpl. rewrite insert_insert_eq, lookup_insert_eq. simpl.
  destruct (assign Rules1 0 (set_StartTime now)) as [Rules2|] eqn:H2;
    simpl; [|done].
  apply assign_inv in H2 as (r0 & Hr0 & ->).
  rewrite insert_insert_eq.
  rewrite deref_insert_ne by (by eapply deref_fresh). rewrite Hd. simpl.
  intros [= <- <- <-]. by exists Rules, Rules1, r0.
Qed.

Lemma createNewBackLog_is_Some d e bid now (h : heap) Rules :
  deref h (directive.Rules d) = Some Rules → Rules ≠ [] →
  refs_in_range RefToDigit Rules →
  is_Some (createNewBackLog RefToDigit copyDirective_deep d e (ok bid) now h).
Proof.
  intros Hd Hne Hin. unfold createNewBackLog, copyDirective_deep. rewrite Hd. simpl.
  set (l := fresh (dom h)).
  destruct (initBackLogRules_range_is_Some e Rules Hin) as [Rules1 HR1].
  rewrite (initBackLogRules_intro _ e (<[l:=Rules]> h) Rules Rules1)
    by (by simpl; rewrite ?lookup_insert_eq).
  simpl. rewrite insert_insert_eq, lookup_insert_eq. simpl.
  destruct (initBackLogRules_range_spec _ _ _ HR1) as [Hlen _].
  destruct (lookup_lt_is_Some_2 Rules1 0) as [r0 Hr0].
  { rewrite Hlen. destruct Rules; [done|simpl; lia]. }
  rewrite (assign_Some _ _ _ _ Hr0). simpl. rewrite insert_insert_eq.
  rewrite deref_insert_ne by (by eapply deref_fresh). rewrite Hd. simpl. eauto.
Qed.

(** C4: when [idgen.GenerateID] succeeds, the backlog [createNewBackLog]
    returns has CurrentStage 1, HighestStage the number of rules of the
    template, and a directive of its own: the template's identifier over a
    newly allocated array of as many rules, while the template's array and
    every other array of the heap are as before; in the new array the rule of
    stage 1 has Status active and every later one Status inactive.  A backlog
    is returned for every template that has a rule and whose references name
    stages of the directive. *)
Theorem createNewBackLog_backlog d e bid now (h : heap) :
  (∀ Rules, deref h (directive.Rules d) = Some Rules → Rules ≠ [] →
            refs_in_range RefToDigit Rules →
            is_Some (createNewBackLog RefToDigit copyDirective_deep d e (ok bid) now h))
  ∧ ∀ res h' tr,
      createNewBackLog RefToDigit copyDirective_deep d e (ok bid) now h = Some (res, h', tr) →
      ∃ b l Rules Rules_b,
        res = ok b
        ∧ backLog.ID b = bid
        ∧ backLog.CurrentStage b = 1%Z
        ∧ deref h (directive.Rules d) = Some Rules
        ∧ backLog.HighestStage b = Z.of_nat (length Rules)
        ∧ directive.ID (backLog.Directive b) = directive.ID d
        ∧ directive.Rules (backLog.Directive b) = Some l
        ∧ h !! l = None
        ∧ directive.Rules (backLog.Directive b) ≠ directive.Rules d
        ∧ (∀ l', l' ≠ l → h' !! l' = h !! l')
        ∧ deref h' (directive.Rules d) = Some Rules
        ∧ h' !! l = Some Rules_b
        ∧ length Rules_b = length Rules
        ∧ (∃ r0, Rules_b !! 0 = Some r0 ∧ Status r0 = "active")
        ∧ (∀ i r, i ≠ 0 → Rules_b !! i = Some r → Status r = "inactive").
Proof.
  split; [intros Rules; apply createNewBackLog_is_Some|].
  intros res h' tr H.
  apply createNewBackLog_deep_inv in H as (Rules & Rules1 & r0 & Hd & HR1 & Hr0 & -> & -> & _).
  destruct (initBackLogRules_range_spec _ _ _ HR1) as [Hlen Hall].
  pose proof (deref_fresh _ _ _ Hd) as Hfresh.
  eexists _, (fresh (dom h)), Rules, _. simpl.
  split; [done|]. split; [done|]. split; [done|]. split; [done|].
  split; [done|]. split; [done|]. split; [done|].
  split; [apply not_elem_of_dom, is_fresh|].
  split; [intros Heq; by apply Hfresh|].
  split; [intros l' Hl'; by apply lookup_insert_ne|].
  split; [by rewrite deref_insert_ne|].
  split; [apply lookup_insert_eq|].
  split; [by rewrite length_insert|].
  split.
  - exists (set_StartTime now r0).
    rewrite list_lookup_insert_eq by (by eapply lookup_lt_Some).
    split; [done|]. simpl.
    destruct (lookup_lt_is_Some_2 Rules 0) as [t0 Ht0].
    { rewrite <- Hlen. by eapply lookup_lt_Some. }
    destruct (Hall 0 t0 Ht0) as (r1 & Hr1 & _ & _ & Hrw).
    assert (r1 = r0) as -> by congruence. simpl in Hrw. by destruct Hrw.
  - intros i r Hi Hr. rewrite list_lookup_insert_ne in Hr by done.
    destruct (lookup_lt_is_Some_2 Rules i) as [t Ht].
    { rewrite <- Hlen. by eapply lookup_lt_Some. }
    destruct (Hall i t Ht) as (r1 & Hr1 & _ & _ & Hrw).
    assert (r1 = r) as -> by congruence.
    destruct (decide (i = 0)); [done|]. by destruct Hrw.
Qed.

(** C5, as the code has it: the start time of the stage-1 rule of the new
    backlog is the clock reading [time.Now().Unix()] taken at creation,
    whatever timestamp the triggering event carries. *)
Theorem createNewBackLog_StartTime_now d e bid now (h h' : heap) b tr :
  createNewBackLog RefToDigit copyDirective d e (ok bid) now h
    = Some (ok b, h', tr) →
  ∃ Rules_b r0,
    deref h' (directive.Rules (backLog.Directive b)) = Some Rules_b
    ∧ Rules_b !! 0 = Some r0
    ∧ StartTime r0 = now.
Proof.
  unfold createNewBackLog.
  destruct (copyDirective _ _ _ _) as [[bD h1]|]; simpl; [|done].
  destruct (initBackLogRules _ _ _ _) as [h2|]; simpl; [|done].
  destruct (in_place _ _ _) as [h3|] eqn:Hset; simpl; [|done].
  destruct (deref h3 _) as [Rules|]; simpl; [|done].
  intros [= <- <- _]. simpl.
  destruct (directive.Rules bD) as [l|]; [|done].
  apply in_place_Some in Hset as (Rules1 & Rules2 & _ & Hassign & ->).
  apply assign_inv in Hassign as (r0 & Hr0 & ->).
  simpl. rewrite lookup_insert_eq.
  eexists _, (set_StartTime now r0). split; [done|].
  rewrite list_lookup_insert_eq by (by eapply lookup_lt_Some). done.
Qed.

(** *** The event loop *)

Lemma skip_candidate d v :
  negb (directive.ID (backLog.Directive v) =? directive.ID d)%Z
  || (backLog.CurrentStage v <=? 1)%Z
  = negb (candidate d v).
Proof.
  unfold candidate. rewrite negb_andb. f_equal.
  apply Z.leb_antisym.
Qed.

Lemma manager_scan_spec self d e (h : heap) bl : ∀ vs tr found,
  manager_scan doesEventMatchRule d e h bl vs = Some (tr, found) →
  match found with
  | Some (bid, idx) => scan_found doesEventMatchRule self d e h bl vs tr bid idx
  | None => scan_none doesEventMatchRule self d e h vs tr
  end.
Proof.
  induction vs as [|v vs IH]; intros tr found; simpl.
  - intros [= <- <-]. by repeat split.
  - rewrite skip_candidate.
    destruct (candidate d v) eqn:Hc; simpl.
    + destruct (deref h (directive.Rules (backLog.Directive v)))
        as [Rules|] eqn:Hd; simpl; [|done].
      destruct (index Rules (int_sub (backLog.CurrentStage v) 1))
        as [r|] eqn:Hi; simpl; [|done].
      assert (stage_rule h v = Some r) as Hr.
      { unfold stage_rule. by rewrite Hd. }
      destruct (doesEventMatchRule e r (event.ConnID e)) eqn:Hm; simpl.
      * destruct (bl !! backLog.ID v) as [b|] eqn:Hb; simpl; [|done].
        intros [= <- <-].
        exists [], v, vs, r,
          [RLock (backLog_mu (backLog.ID v)); Match r (event.ConnID e) true;
           Log Debug (" Event match with existing backlog. CurrentStage is "
                      +:+ strconv.Itoa (backLog.CurrentStage v));
           RUnlock (backLog_mu (backLog.ID v))].
        repeat split; try done; eauto.
        repeat constructor; simpl; done.
      * destruct (manager_scan doesEventMatchRule d e h bl vs)
          as [[tr' found']|] eqn:Hs; simpl; [|done].
        intros [= <- <-]. specialize (IH _ _ eq_refl).
        assert (matches doesEventMatchRule d e h v = false) as Hv.
        { unfold matches. rewrite Hc, Hr. simpl. done. }
        assert (∀ l, scan_tests doesEventMatchRule d e h (v :: l)
                     = (r, false) :: scan_tests doesEventMatchRule d e h l) as Ht.
        { intros l. unfold scan_tests. simpl. rewrite Hc, Hr. simpl. by rewrite Hm. }
        destruct found' as [[bid idx]|].
        -- destruct IH as (pre & v' & post & r' & tr0 & -> & Hpre & Hc' & Hr'
                           & Hm' & -> & -> & Hbl & Hte & Hvi & Hdi & Hca & Hst
                           & Hwa & -> & Hq).
           exists (v :: pre), v', post, r',
             (RLock (backLog_mu (backLog.ID v))
              :: Match r (event.ConnID e) false
              :: RUnlock (backLog_mu (backLog.ID v)) :: tr0).
           repeat split; try done.
           ++ by constructor.
           ++ rewrite Ht. simpl. f_equal. apply Hte.
           ++ simpl. f_equal. apply Hvi.
           ++ repeat constructor; simpl; done.
        -- destruct IH as (Hall & Hte & Hvi & Hdi & Hca & Hst & Hwa & Hq).
           repeat split; try done.
           ++ by constructor.
           ++ rewrite Ht. simpl. f_equal. apply Hte.
           ++ simpl. f_equal. apply Hvi.
           ++ repeat constructor; simpl; done.
    + destruct (manager_scan doesEventMatchRule d e h bl vs)
        as [[tr' found']|] eqn:Hs; simpl; [|done].
      intros [= <- <-]. specialize (IH _ _ eq_refl).
      assert (matches doesEventMatchRule d e h v = false) as Hv.
      { unfold matches. by rewrite Hc. }
      assert (∀ l, scan_tests doesEventMatchRule d e h (v :: l)
                   = scan_tests doesEventMatchRule d e h l) as Ht.
      { intros l. unfold scan_tests. simpl. by rewrite Hc. }
      destruct found' as [[bid idx]|].
      * destruct IH as (pre & v' & post & r' & tr0 & -> & Hpre & Hc' & Hr'
                        & Hm' & -> & -> & Hbl & Hte & Hvi & Hdi & Hca & Hst
                        & Hwa & -> & Hq).
        exists (v :: pre), v', post, r',
          (RLock (backLog_mu (backLog.ID v))
           :: RUnlock (backLog_mu (backLog.ID v)) :: tr0).
        repeat split; try done.
        -- by constructor.
        -- rewrite Ht. simpl. apply Hte.
        -- simpl. f_equal. apply Hvi.
        -- repeat constructor; simpl; done.
      * destruct IH as (Hall & Hte & Hvi & Hdi & Hca & Hst & Hwa & Hq).
        repeat split; try done.
        -- by constructor.
        -- rewrite Ht. simpl. apply Hte.
        -- simpl. f_equal. apply Hvi.
        -- repeat constructor; simpl; done.
Qed.

Lemma manager_body_outcome self d inp σ σ' tr :
  manager_body RefToDigit copyDirective doesEventMatchRule processMatchedEvent self d inp σ
    = Some (σ', tr)
  ↔ body_outcome RefToDigit copyDirective doesEventMatchRule processMatchedEvent
      self d inp σ σ' tr.
Proof.
  unfold manager_body. split.
  - destruct (manager_scan _ _ _ _ _ _) as [[trs [[bid idx]|]]|] eqn:Hs;
      simpl; [| |done].
    { intros [= <- <-]. by eapply body_dispatched. }
    destruct (deref _ _) as [Rules|] eqn:Hd; simpl; [|done].
    destruct (index Rules 0) as [rule0|] eqn:H0; simpl; [|done].
    destruct (doesEventMatchRule _ rule0 _) eqn:Hm; simpl.
    + destruct (createNewBackLog _ _ _ _ _ _) as [[[[b|msg] h'] trc]|] eqn:Hc;
        simpl; [| |done].
      * rewrite alter_insert_eq, lookup_insert_eq. simpl.
        destruct (processMatchedEvent _ _ _ _) as [b'' h''] eqn:Hp.
        intros [= <- <-]. by eapply body_created.
      * intros [= <- <-]. by eapply body_failed.
    + intros [= <- <-]. by eapply body_discarded.
  - intros [trs bid idx Hs|trs Rules rule0 Hs Hd H0 Hm
            |trs Rules rule0 msg h' trc Hs Hd H0 Hm Hc
            |trs Rules rule0 b h' trc b'' h'' Hs Hd H0 Hm Hc Hp];
      rewrite Hs; simpl; [done|..]; rewrite Hd; simpl; rewrite H0; simpl;
      rewrite Hm; simpl; [done|..]; rewrite Hc; simpl; [done|].
    rewrite alter_insert_eq, lookup_insert_eq. simpl. by rewrite Hp.
Qed.


Lemma tests_app tr1 tr2 : tests (tr1 ++ tr2) = tests tr1 ++ tests tr2.
Proof. apply omap_app. Qed.

Lemma visited_app tr1 tr2 : visited (tr1 ++ tr2) = visited tr1 ++ visited tr2.
Proof. apply omap_app. Qed.

Lemma dispatches_app tr1 tr2 :
  dispatches (tr1 ++ tr2) = dispatches tr1 ++ dispatches tr2.
Proof. apply omap_app. Qed.

Lemma calls_app tr1 tr2 : calls (tr1 ++ tr2) = calls tr1 ++ calls tr2.
Proof. apply omap_app. Qed.

Lemma stores_app tr1 tr2 : stores (tr1 ++ tr2) = stores tr1 ++ stores tr2.
Proof. apply omap_app. Qed.

Lemma warnings_app tr1 tr2 :
  warnings (tr1 ++ tr2) = warnings tr1 ++ warnings tr2.
Proof. apply omap_app. Qed.

Ltac trace_simpl :=
  repeat first
    [ rewrite tests_app | rewrite visited_app | rewrite dispatches_app
    | rewrite calls_app | rewrite stores_app | rewrite warnings_app ];
  simpl.


Lemma elem_of_stores tr p bid : MapStore p bid ∈ tr → (p, bid) ∈ stores tr.
Proof. intros H. apply list_elem_of_omap. by exists (MapStore p bid). Qed.

Lemma elem_of_dispatches tr bid e idx :
  Go_processMatchedEvent bid e idx ∈ tr → (bid, e, idx) ∈ dispatches tr.
Proof.
  intros H. apply list_elem_of_omap. by exists (Go_processMatchedEvent bid e idx).
Qed.

Lemma manager_cons self d inp itf ch σ0 σ' tr :
  manager_body RefToDigit copyDirective doesEventMatchRule processMatchedEvent
    self d inp (itf σ0) = Some (σ', tr) →
  manager RefToDigit copyDirective doesEventMatchRule processMatchedEvent self d
    ((inp, itf) :: ch) σ0
  = ('(σ2, tr2) ← manager RefToDigit copyDirective doesEventMatchRule processMatchedEvent
                    self d ch σ';
     Some (σ2, tr ++ tr2)).
Proof. intros H. simpl. by rewrite H. Qed.

(** C6, as the code has it: on the creation path the loop takes the global
    lock, stores the new backlog, releases the lock of the group, runs the
    first stage advance itself and only then releases the global lock; on the
    match-on-existing path the lock of the group is released right after the
    stage advance is dispatched.  Before these steps the iteration holds the
    lock of the group throughout, and the actions of the next event all come
    after the last action of this one. *)
Theorem manager_body_lock_order self d inp σ σ' tr :
  manager_body RefToDigit copyDirective doesEventMatchRule processMatchedEvent self d inp σ
    = Some (σ', tr) →
  (∀ bid, MapStore self bid ∈ tr →
     ∃ pre, tr = Lock (blogs_mu self) :: pre
                 ++ [Lock glock; MapStore self bid; Unlock (blogs_mu self);
                     Call_processMatchedEvent bid (ev inp) 0; Unlock glock]
            ∧ Forall (quiet self) pre)
  ∧ (∀ bid e idx, Go_processMatchedEvent bid e idx ∈ tr →
       ∃ pre, tr = Lock (blogs_mu self) :: pre
                   ++ [Go_processMatchedEvent bid e idx; Unlock (blogs_mu self)]
              ∧ Forall (quiet self) pre)
  ∧ (∀ itf ch σ0 σ2 trs,
       itf σ0 = σ →
       manager RefToDigit copyDirective doesEventMatchRule processMatchedEvent self d
         ((inp, itf) :: ch) σ0 = Some (σ2, trs) →
       ∃ tr2, manager RefToDigit copyDirective doesEventMatchRule processMatchedEvent
                self d ch σ' = Some (σ2, tr2)
              ∧ trs = tr ++ tr2).
Proof.
  intros Hb. split; [|split].
  - intros bid Hin%elem_of_stores. revert Hin. apply manager_body_outcome in Hb.
    destruct Hb as [trs bid' idx Hs|trs Rules rule0 Hs Hd H0 Hm
            |trs Rules rule0 msg h' trc Hs Hd H0 Hm Hc
            |trs Rules rule0 b h' trc b'' h'' Hs Hd H0 Hm Hc Hp];
      apply (manager_scan_spec self) in Hs.
    + destruct Hs as (pre & v & post & r & tr0 & _ & _ & _ & _ & _
                      & _ & _ & _ & _ & _ & _ & _ & Hst & _).
      trace_simpl. rewrite Hst. by intros ?%elem_of_nil.
    + destruct Hs as (_ & _ & _ & _ & _ & Hst & _).
      trace_simpl. rewrite Hst. by intros ?%elem_of_nil.
    + destruct Hs as (_ & _ & _ & _ & _ & Hst & _).
      destruct (gen inp) as [bid'|msg'] eqn:Hg.
      { by apply createNewBackLog_ok in Hc as [[? ?] _]. }
      simpl in Hc. injection Hc as <- <- <-.
      trace_simpl. rewrite Hst. by intros ?%elem_of_nil.
    + destruct Hs as (_ & _ & _ & _ & _ & Hst & _ & Hq).
      destruct (gen inp) as [bid'|msg'] eqn:Hg; [|done].
      apply createNewBackLog_ok in Hc as [_ ->].
      trace_simpl. rewrite Hst. simpl.
      intros [= <-]%list_elem_of_singleton.
      exists (trs ++ [Match rule0 (event.ConnID (ev inp)) true;
                      Log Info "Creating new backlog"]).
      split; [by rewrite <- app_assoc|].
      apply Forall_app. split; [done|]. by repeat constructor.
  - intros bid e idx Hin%elem_of_dispatches. revert Hin.
    apply manager_body_outcome in Hb.
    destruct Hb as [trs bid' idx' Hs|trs Rules rule0 Hs Hd H0 Hm
            |trs Rules rule0 msg h' trc Hs Hd H0 Hm Hc
            |trs Rules rule0 b h' trc b'' h'' Hs Hd H0 Hm Hc Hp];
      apply (manager_scan_spec self) in Hs.
    + destruct Hs as (pre & v & post & r & tr0 & _ & _ & _ & _ & _
                      & _ & _ & _ & _ & _ & Hdi & _ & _ & _ & Htr & Hq).
      trace_simpl. rewrite Hdi. simpl.
      intros [= -> -> ->]%list_elem_of_singleton. subst trs.
      exists tr0. split; [by rewrite <- app_assoc|done].
    + destruct Hs as (_ & _ & _ & Hdi & _).
      trace_simpl. rewrite Hdi. by intros ?%elem_of_nil.
    + destruct Hs as (_ & _ & _ & Hdi & _).
      destruct (gen inp) as [bid'|msg'] eqn:Hg.
      { by apply createNewBackLog_ok in Hc as [[? ?] _]. }
      simpl in Hc. injection Hc as <- <- <-.
      trace_simpl. rewrite Hdi. by intros ?%elem_of_nil.
    + destruct Hs as (_ & _ & _ & Hdi & _).
      destruct (gen inp) as [bid'|msg'] eqn:Hg; [|done].
      apply createNewBackLog_ok in Hc as [_ ->].
      trace_simpl. rewrite Hdi. by intros ?%elem_of_nil.
  - intros itf ch σ0 σ2 trs <- Hm.
    rewrite (manager_cons _ _ _ _ _ _ _ _ Hb) in Hm.
    destruct (manager _ _ _ _ _ _ ch σ') as [[σ3 tr3]|]; simpl in Hm; [|done].
    injection Hm as <- <-. eauto.
Qed.

(** C7: when the creation of a backlog is reached and [idgen.GenerateID]
    fails, [createNewBackLog] returns the error and leaves the heap alone;
    the iteration logs the warning, releases the lock of the group and
    returns with the state, hence the map of the group, unchanged: nothing
    is stored, nothing is advanced.  The loop then goes on with the events
    that follow. *)
Theorem manager_body_GenerateID_fails self d inp σ msg trs Rules rule0 :
  gen inp = err msg →
  manager_scan doesEventMatchRule d (ev inp) (st_heap σ) (st_bl σ)
    (range (order inp) (st_bl σ)).*2 = Some (trs, None) →
  deref (st_heap σ) (directive.Rules d) = Some Rules →
  index Rules 0 = Some rule0 →
  doesEventMatchRule (ev inp) rule0 (event.ConnID (ev inp)) = true →
  let tr := [Lock (blogs_mu self)] ++ trs
            ++ [Match rule0 (event.ConnID (ev inp)) true;
                Log Warn "Fail to create new backlog";
                Unlock (blogs_mu self)] in
  createNewBackLog RefToDigit copyDirective d (ev inp) (gen inp) (now inp) (st_heap σ)
    = Some (err msg, st_heap σ, [])
  ∧ manager_body RefToDigit copyDirective doesEventMatchRule processMatchedEvent
      self d inp σ = Some (σ, tr)
  ∧ stores tr = [] ∧ calls tr = [] ∧ dispatches tr = []
  ∧ warnings tr = ["Fail to create new backlog"]
  ∧ ∀ itf ch σ0,
      itf σ0 = σ →
      manager RefToDigit copyDirective doesEventMatchRule processMatchedEvent self d
        ((inp, itf) :: ch) σ0
      = ('(σ2, tr2) ← manager RefToDigit copyDirective doesEventMatchRule
                        processMatchedEvent self d ch σ;
         Some (σ2, tr ++ tr2)).
Proof.
  intros Hg Hs Hd H0 Hm tr.
  assert (createNewBackLog RefToDigit copyDirective d (ev inp) (gen inp) (now inp) (st_heap σ)
          = Some (err msg, st_heap σ, [])) as Hc by (by rewrite Hg).
  assert (manager_body RefToDigit copyDirective doesEventMatchRule processMatchedEvent
            self d inp σ = Some (σ, tr)) as Hb.
  { apply manager_body_outcome.
    replace σ with {| st_heap := st_heap σ; st_bl := st_bl σ |} at 2
      by (by destruct σ).
    by eapply (body_failed _ _ _ _ self d inp σ trs Rules rule0 msg (st_heap σ) []). }
  apply (manager_scan_spec self) in Hs
    as (_ & _ & _ & Hdi & Hca & Hst & Hwa & _).
  split; [done|]. split; [done|]. subst tr.
  split; [trace_simpl; by rewrite Hst|].
  split; [trace_simpl; by rewrite Hca|].
  split; [trace_simpl; by rewrite Hdi|].
  split; [trace_simpl; by rewrite Hwa|].
  intros itf ch σ0 <-. by apply manager_cons.
Qed.

(** *** Removal *)

(** C8: [removeBackLog] takes the lock of the group the message points at,
    then the global lock, deletes the entry of the message's identifier from
    the map of that group and releases both.  Every other entry of that map
    and every other group are as before; for an identifier that is not in
    the map nothing changes, so removing the same backlog a second time is a
    no-op. *)
Theorem removeBackLog_frame m (allBacklogs : list backlogs.t) g :
  allBacklogs !! removalChannelMsg.blogs m = Some g →
  let p := removalChannelMsg.blogs m in
  let bid := removalChannelMsg.ID m in
  let tr := [Lock (blogs_mu p); Log Debug "Lock obtained. Removing backlog";
             Lock glock; MapDelete p bid; Unlock glock; Unlock (blogs_mu p)] in
  ∃ all' g',
    removeBackLog m allBacklogs = Some (all', tr)
    ∧ length all' = length allBacklogs
    ∧ all' !! p = Some g'
    ∧ backlogs.id g' = backlogs.id g
    ∧ backlogs.bl g' !! bid = None
    ∧ (∀ k, k ≠ bid → backlogs.bl g' !! k = backlogs.bl g !! k)
    ∧ (∀ q, q ≠ p → all' !! q = allBacklogs !! q)
    ∧ (backlogs.bl g !! bid = None → all' = allBacklogs)
    ∧ removeBackLog m all' = Some (all', tr).
Proof.
  intros Hg p bid tr. subst p bid tr.
  pose proof (lookup_lt_Some _ _ _ Hg) as Hlt.
  unfold removeBackLog. rewrite Hg. simpl.
  eexists _, _. split; [done|].
  split; [by rewrite length_insert|].
  split; [by apply list_lookup_insert_eq|].
  split; [done|].
  split; [apply lookup_delete_eq|].
  split; [intros k Hk; by apply lookup_delete_ne|].
  split; [intros q Hq; by apply list_lookup_insert_ne|].
  split.
  - intros Hnone. apply list_insert_id. rewrite Hg. f_equal.
    rewrite delete_id by done. by destruct g.
  - rewrite list_lookup_insert_eq by done. simpl.
    rewrite list_insert_insert_eq. do 3 f_equal. unfold backlogs.set_bl. simpl.
    f_equal. apply delete_id, lookup_delete_eq.
Qed.

(** *** Watchdog sweep *)

Lemma wrap_small z : int_range z → wrap z = z.
Proof.
  unfold int_range, wrap. intros Hz.
  rewrite Z.mod_small by lia. lia.
Qed.

Lemma wrap_wrap_add a b : wrap (wrap a + b) = wrap (a + b).
Proof.
  unfold wrap. f_equal.
  replace ((a + 2 ^ 63) mod 2 ^ 64 - 2 ^ 63 + b + 2 ^ 63)%Z
    with ((a + 2 ^ 63) mod 2 ^ 64 + b)%Z by lia.
  rewrite Zplus_mod_idemp_l. f_equal. lia.
Qed.

Lemma checks_app tr1 tr2 : checks (tr1 ++ tr2) = checks tr1 ++ checks tr2.
Proof. apply omap_app. Qed.

Lemma published_app tr1 tr2 :
  published (tr1 ++ tr2) = published tr1 ++ published tr2.
Proof. apply omap_app. Qed.

Lemma checks_cons a tr :
  checks (a :: tr)
  = match a with
    | Call_checkExpired p bid => (p, bid) :: checks tr
    | _ => checks tr
    end.
Proof. by destruct a. Qed.

Lemma published_cons a tr :
  published (a :: tr)
  = match a with
    | Set_backlogCounter n => n :: published tr
    | _ => published tr
    end.
Proof. by destruct a. Qed.

Lemma range_keys order (m : gmap string backLog.t) k :
  k ∈ (range order m).*1 ↔ is_Some (m !! k).
Proof.
  rewrite (range_perm order m). rewrite list_elem_of_fmap. split.
  - intros ([k' v] & -> & Hin). apply elem_of_map_to_list in Hin. eauto.
  - intros [v Hv]. exists (k, v). split; [done|]. by apply elem_of_map_to_list.
Qed.

Lemma range_keys_NoDup order (m : gmap string backLog.t) :
  NoDup (range order m).*1.
Proof. rewrite (range_perm order m). apply NoDup_fst_map_to_list. Qed.

Lemma range_empty order (m : gmap string backLog.t) :
  size m = 0 → range order m = [].
Proof.
  intros ->%map_size_empty_iff. apply Permutation_nil_r.
  rewrite (range_perm order ∅). by rewrite map_to_list_empty.
Qed.

Lemma check_all_spec p (m : gmap string backLog.t) js :
  (∀ j, j ∈ js → is_Some (m !! j)) →
  check_all p m js = Some (Call_checkExpired p <$> js).
Proof.
  induction js as [|j js IH]; intros H; simpl; [done|].
  destruct (H j) as [v ->]; [apply list_elem_of_here|]. simpl.
  rewrite IH; [done|]. intros j' Hj'. apply H. by apply list_elem_of_further.
Qed.

Lemma checks_calls p js :
  checks (Call_checkExpired p <$> js) = (λ k, (p, k)) <$> js.
Proof. induction js as [|j js IH]; simpl; [done|]. by f_equal. Qed.

Lemma published_calls p js : published (Call_checkExpired p <$> js) = [].
Proof. by induction js. Qed.

Lemma sweep_groups_spec order : ∀ gs i acc,
  ∃ tr, sweep_groups order i gs (wrap acc)
        = Some (wrap (acc + total_size gs), tr)
        ∧ checks tr = expected_checks order i gs
        ∧ published tr = [].
Proof.
  induction gs as [|g gs IH]; intros i acc; simpl.
  - exists []. by rewrite Z.add_0_r.
  - destruct (Z.eqb_spec (Z.of_nat (size (backlogs.bl g))) 0) as [Hz|Hz].
    + destruct (IH (S i) acc) as (tr & -> & Hch & Hpu). simpl.
      eexists. split; [do 3 f_equal; lia|].
      rewrite range_empty by lia. simpl. done.
    + unfold int_add. rewrite wrap_wrap_add.
      rewrite check_all_spec by (intros j; apply range_keys). simpl.
      destruct (IH (S i) (acc + Z.of_nat (size (backlogs.bl g)))%Z)
        as (tr & -> & Hch & Hpu). simpl.
      eexists. split; [do 3 f_equal; lia|].
      rewrite !checks_cons, !published_cons, checks_app, published_app.
      rewrite !checks_cons, !published_cons, checks_calls, published_calls.
      by rewrite Hch, Hpu.
Qed.

Lemma elem_of_expected_checks order : ∀ gs i j k,
  (j, k) ∈ expected_checks order i gs ↔
  ∃ g, i ≤ j ∧ gs !! (j - i) = Some g ∧ is_Some (backlogs.bl g !! k).
Proof.
  induction gs as [|g gs IH]; intros i j k; simpl.
  - split; [by intros ?%elem_of_nil | by intros (? & _ & ? & _)].
  - rewrite elem_of_app, list_elem_of_fmap, IH. split.
    + intros [(k' & [= -> ->] & Hk)|(g' & Hij & Hg' & Hk)].
      * exists g. rewrite Nat.sub_diag. apply range_keys in Hk. by repeat split.
      * exists g'. split; [lia|]. split; [|done].
        replace (j - i) with (S (j - S i)) by lia. done.
    + intros (g' & Hij & Hg' & Hk). destruct (decide (j = i)) as [->|Hne].
      * left. rewrite Nat.sub_diag in Hg'. simpl in Hg'. simplify_eq.
        exists k. split; [done|]. by apply range_keys.
      * right. exists g'. split; [lia|]. split; [|done].
        replace (j - i) with (S (j - S i)) in Hg' by lia. done.
Qed.

Lemma NoDup_expected_checks order : ∀ gs i, NoDup (expected_checks order i gs).
Proof.
  induction gs as [|g gs IH]; intros i; simpl; [constructor|].
  apply NoDup_app. split; [|split; [|apply IH]].
  - apply NoDup_fmap_2; [by intros ?? [= ->]|apply range_keys_NoDup].
  - intros [j k] (k' & [= -> ->] & _)%list_elem_of_fmap
      (g' & Hle & _)%elem_of_expected_checks. lia.
Qed.

(** C9: one sweep of the watchdog always completes.  The value it sets
    [backlogCounter] to is the sum, over all groups, of the sizes of their
    maps as the sweep found them (as a machine integer; the sum itself while
    it fits).  [checkExpired] is called exactly once on every backlog of
    every group and on nothing else, so a group found empty gets no call. *)
Theorem watchdog_tick_counter order alarms eps (allBacklogs : list backlogs.t) :
  ∃ bLen tr,
    watchdog_tick order alarms eps allBacklogs = Some (bLen, tr)
    ∧ published tr = [bLen]
    ∧ bLen = wrap (total_size allBacklogs)
    ∧ ((total_size allBacklogs < 2 ^ 63)%Z → bLen = total_size allBacklogs)
    ∧ NoDup (checks tr)
    ∧ (∀ i k, (i, k) ∈ checks tr ↔
              ∃ g, allBacklogs !! i = Some g ∧ is_Some (backlogs.bl g !! k))
    ∧ (∀ i g k, allBacklogs !! i = Some g → size (backlogs.bl g) = 0 →
                (i, k) ∉ checks tr).
Proof.
  unfold watchdog_tick.
  destruct (sweep_groups_spec order allBacklogs 0 0) as (tr & Hs & Hch & Hpu).
  change (wrap 0) with 0%Z in Hs. rewrite Hs. simpl.
  eexists _, _. split; [done|].
  assert (∀ i k, (i, k) ∈ expected_checks order 0 allBacklogs ↔
            ∃ g, allBacklogs !! i = Some g ∧ is_Some (backlogs.bl g !! k)) as Hin.
  { intros i k. rewrite elem_of_expected_checks. rewrite Nat.sub_0_r.
    split; [intros (g & _ & ? & ?); eauto | intros (g & ? & ?)].
    exists g. split; [lia|done]. }
  rewrite !checks_cons, !published_cons, checks_app, published_app.
  rewrite !checks_cons, !published_cons, Hch, Hpu. simpl. rewrite app_nil_r.
  split; [done|]. split; [done|]. split.
  { intros Hlt. apply wrap_small. unfold int_range. split; [|done].
    assert (∀ gs, (0 ≤ total_size gs)%Z) as Hpos.
    { induction gs as [|g gs IH]; simpl; lia. }
    specialize (Hpos allBacklogs). lia. }
  split; [apply NoDup_expected_checks|]. split; [done|].
  intros i g k Hg Hsz. rewrite Hin. intros (g' & Hg' & [v Hv]).
  assert (g' = g) as -> by congruence.
  apply map_size_empty_iff in Hsz. rewrite Hsz in Hv. by rewrite lookup_empty in Hv.
Qed.

(** ** Further properties of the code *)

(** *** When the resolver and the creation return *)

Lemma view_length i (Rules' Rules : list directiveRule) :
  length Rules' = length Rules → i ≤ length Rules →
  length (view i Rules' Rules) = length Rules.
Proof.
  intros Hl Hi. unfold view. rewrite length_app, length_take, length_drop. lia.
Qed.

(** X1: [initBackLogRules] returns exactly when every field of a later stage
    that parses as a reference names a stage of the directive; a reference to
    stage 0 or past the last stage is an index out of range. *)
Theorem initBackLogRules_returns_iff d e (h : heap) Rules :
  deref h (directive.Rules d) = Some Rules →
  is_Some (initBackLogRules RefToDigit d e h) ↔ refs_in_range RefToDigit Rules.
Proof.
  intros Hd. split.
  - intros [h' Hh'] i r f K Hr Hi HK.
    destruct (initBackLogRules_inv _ _ _ _ _ Hd Hh') as (Rules' & HR & _ & _).
    destruct (initBackLogRules_range_spec _ _ _ HR) as [Hlen Hall].
    destruct (Hall i r Hr) as (r' & _ & _ & _ & Hrw).
    destruct (decide (i = 0)); [done|]. destruct Hrw as [_ Hrw].
    specialize (Hrw f). unfold field_rewritten in Hrw. rewrite HK in Hrw.
    destruct Hrw as (ref & Href & _).
    assert (is_Some (index (view i Rules' Rules) (int_sub K 1))) as Hin by eauto.
    apply index_is_Some in Hin. rewrite view_length in Hin; [done..|].
    apply lookup_lt_Some in Hr. lia.
  - intros Hin.
    destruct (initBackLogRules_range_is_Some e Rules Hin) as [Rules' HR].
    rewrite (initBackLogRules_intro _ _ _ _ _ Hd HR). eauto.
Qed.

(** X2: [createNewBackLog] panics when the directive copy has no rule: the
    assignment to [Rules[0].StartTime] indexes an empty slice. *)
Theorem createNewBackLog_no_rule_panics d e bid now (h h1 : heap) bD :
  copyDirective directive.zero d e h = Some (bD, h1) →
  deref h1 (directive.Rules bD) = Some [] →
  createNewBackLog RefToDigit copyDirective d e (ok bid) now h = None.
Proof.
  intros Hcopy Hd. unfold createNewBackLog. rewrite Hcopy. simpl.
  rewrite (initBackLogRules_intro bD e h1 [] [] Hd eq_refl). simpl.
  destruct (directive.Rules bD) as [l|]; simpl in *; [|done].
  by rewrite lookup_insert_eq.
Qed.

(** *** One iteration of the loop: panics, advances, the map *)

Lemma manager_scan_stage_missing d e (h : heap) bl v post : ∀ pre,
  Forall (λ u, matches doesEventMatchRule d e h u = false) pre →
  candidate d v = true → stage_rule h v = None →
  manager_scan doesEventMatchRule d e h bl (pre ++ v :: post) = None.
Proof.
  intros pre Hpre Hc Hr. induction Hpre as [|u pre Hu _ IH]; simpl.
  - rewrite skip_candidate, Hc. simpl. unfold stage_rule in Hr.
    destruct (deref h _) as [Rules|]; simpl in *; [|done]. by rewrite Hr.
  - rewrite skip_candidate, IH. unfold matches in Hu.
    destruct (candidate d u); simpl in *; [|done].
    unfold stage_rule in Hu.
    destruct (deref h _) as [Rules|]; simpl in *; [|done].
    destruct (index Rules _) as [r|]; simpl in *; [|done]. by rewrite Hu.
Qed.

(** X3: An iteration panics when, before any backlog matches, the scan comes to
    a backlog of this directive past stage 1 whose CurrentStage - 1 is not
    an index of its rules. *)
Theorem manager_body_stage_out_of_range_panics self d inp σ pre v post :
  (range (order inp) (st_bl σ)).*2 = pre ++ v :: post →
  Forall (λ u, matches doesEventMatchRule d (ev inp) (st_heap σ) u = false) pre →
  candidate d v = true →
  stage_rule (st_heap σ) v = None →
  manager_body RefToDigit copyDirective doesEventMatchRule processMatchedEvent
    self d inp σ = None.
Proof.
  intros Hvs Hpre Hc Hr. unfold manager_body.
  by rewrite Hvs, (manager_scan_stage_missing _ _ _ _ _ _ _ Hpre Hc Hr).
Qed.

(** X4: An iteration panics when no existing backlog matches and the directive
    has no rule: the stage-1 test indexes an empty slice. *)
Theorem manager_body_no_rule_panics self d inp σ :
  deref (st_heap σ) (directive.Rules d) = Some [] →
  Forall (λ u, matches doesEventMatchRule d (ev inp) (st_heap σ) u = false)
    (range (order inp) (st_bl σ)).*2 →
  manager_body RefToDigit copyDirective doesEventMatchRule processMatchedEvent
    self d inp σ = None.
Proof.
  intros Hd Hno. unfold manager_body.
  destruct (manager_scan _ _ _ _ _ _) as [[trs [[bid idx]|]]|] eqn:Hs;
    simpl; [| |done].
  - apply (manager_scan_spec self) in Hs
      as (pre & v & post & r & tr0 & Hvs & _ & Hc & Hr & Hm & _).
    rewrite Hvs in Hno. apply Forall_app in Hno as [_ Hno].
    apply Forall_cons in Hno as [Hv _]. unfold matches in Hv.
    rewrite Hc, Hr in Hv. simpl in Hv. congruence.
  - by rewrite Hd.
Qed.

(** The three ways an iteration that returns has gone, by what its trace
    holds. *)
Lemma manager_body_cases self d inp σ σ' tr :
  manager_body RefToDigit copyDirective doesEventMatchRule processMatchedEvent
    self d inp σ = Some (σ', tr) →
  (∃ v, v ∈ (range (order inp) (st_bl σ)).*2
        ∧ matches doesEventMatchRule d (ev inp) (st_heap σ) v = true
        ∧ dispatches tr
          = [(backLog.ID v, ev inp, int_sub (backLog.CurrentStage v) 1)]
        ∧ calls tr = [] ∧ stores tr = [] ∧ warnings tr = [] ∧ σ' = σ)
  ∨ (Forall (λ u, matches doesEventMatchRule d (ev inp) (st_heap σ) u = false)
       (range (order inp) (st_bl σ)).*2
     ∧ dispatches tr = [] ∧ calls tr = [] ∧ stores tr = []
     ∧ st_bl σ' = st_bl σ)
  ∨ (Forall (λ u, matches doesEventMatchRule d (ev inp) (st_heap σ) u = false)
       (range (order inp) (st_bl σ)).*2
     ∧ ∃ b h' trc b'' h'',
         createNewBackLog RefToDigit copyDirective d (ev inp) (gen inp)
           (now inp) (st_heap σ) = Some (ok b, h', trc)
         ∧ processMatchedEvent (ev inp) 0 (backLog.set_bLogs (Some self) b) h'
           = (b'', h'')
         ∧ dispatches tr = []
         ∧ calls tr = [(backLog.ID b, ev inp, 0%Z)]
         ∧ stores tr = [(self, backLog.ID b)]
         ∧ warnings tr = []
         ∧ σ' = {| st_heap := h'';
                   st_bl := <[backLog.ID b := b'']> (st_bl σ) |}).
Proof.
  intros [trs bid idx Hs|trs Rules rule0 Hs Hd H0 Hm
         |trs Rules rule0 msg h' trc Hs Hd H0 Hm Hc
         |trs Rules rule0 b h' trc b'' h'' Hs Hd H0 Hm Hc Hp]%manager_body_outcome;
    apply (manager_scan_spec self) in Hs.
  - left.
    destruct Hs as (pre & v & post & r & tr0 & Hvs & Hpre & Hc & Hr & Hm
                    & -> & -> & _ & Hte & Hvi & Hdi & Hca & Hst & Hwa & _).
    exists v. rewrite Hvs.
    split; [apply elem_of_app; right; apply list_elem_of_here|].
    split; [unfold matches; by rewrite Hc, Hr|].
    trace_simpl. by rewrite Hdi, Hca, Hst, Hwa.
  - right; left.
    destruct Hs as (Hall & Hte & Hvi & Hdi & Hca & Hst & Hwa & _).
    split; [done|]. trace_simpl. by rewrite Hdi, Hca, Hst.
  - right; left.
    destruct Hs as (Hall & Hte & Hvi & Hdi & Hca & Hst & Hwa & _).
    split; [done|].
    destruct (gen inp) as [bid'|msg'] eqn:Hg.
    { by apply createNewBackLog_ok in Hc as [[? ?] _]. }
    simpl in Hc. injection Hc as <- <- <-.
    trace_simpl. by rewrite Hdi, Hca, Hst.
  - right; right.
    destruct Hs as (Hall & Hte & Hvi & Hdi & Hca & Hst & Hwa & _).
    split; [done|]. exists b, h', trc, b'', h''.
    split; [done|]. split; [done|].
    pose proof Hc as Hc'.
    destruct (gen inp) as [bid'|msg'] eqn:Hg; [|done].
    apply createNewBackLog_ok in Hc' as [_ ->].
    trace_simpl. rewrite Hdi, Hca, Hst, Hwa. simpl.
    by rewrite insert_insert_eq.
Qed.

(** X5: An iteration advances at most one backlog, and only on the event it
    received: either it dispatches the advance of one existing backlog, or it
    stores one new backlog and runs its first advance itself, or neither;
    after a warning nothing is advanced. *)
Theorem manager_body_one_advance self d inp σ σ' tr :
  manager_body RefToDigit copyDirective doesEventMatchRule processMatchedEvent
    self d inp σ = Some (σ', tr) →
  length (dispatches tr) + length (calls tr) ≤ 1
  ∧ (∀ x, x ∈ dispatches tr ++ calls tr → x.1.2 = ev inp)
  ∧ stores tr = (λ x, (self, x.1.1)) <$> calls tr
  ∧ (∀ x, x ∈ calls tr → x.2 = 0%Z)
  ∧ (warnings tr ≠ [] → dispatches tr = [] ∧ calls tr = []).
Proof.
  intros [(v & _ & _ & -> & -> & -> & -> & _)
         |[(_ & -> & -> & -> & _)
          |(_ & b & h' & trc & b'' & h'' & _ & _ & -> & -> & -> & -> & _)]]%manager_body_cases;
    simpl; (split; [lia|]).
  - split; [by intros x ->%list_elem_of_singleton|]. split; [done|].
    split; [|done]. intros x Hin. by apply elem_of_nil in Hin.
  - split; [intros x Hin; by apply elem_of_nil in Hin|]. split; [done|].
    split; [|done]. intros x Hin. by apply elem_of_nil in Hin.
  - split; [by intros x ->%list_elem_of_singleton|]. split; [done|].
    split; [|done]. by intros x ->%list_elem_of_singleton.
Qed.

(** X6: An iteration never removes a backlog from the map of the group and
    changes at most the entry it stores: every other entry is as before, and
    without a store the map is unchanged.  A store under an identifier that
    is new to the map makes it one larger; under an identifier already there
    it replaces that backlog and the size stays. *)
Theorem manager_body_map_frame self d inp σ σ' tr :
  manager_body RefToDigit copyDirective doesEventMatchRule processMatchedEvent
    self d inp σ = Some (σ', tr) →
  (∀ k, (self, k) ∉ stores tr → st_bl σ' !! k = st_bl σ !! k)
  ∧ (∀ k, is_Some (st_bl σ !! k) → is_Some (st_bl σ' !! k))
  ∧ (∀ p k, (p, k) ∈ stores tr →
       p = self ∧ is_Some (st_bl σ' !! k)
       ∧ size (st_bl σ')
         = if st_bl σ !! k is Some _ then size (st_bl σ)
           else S (size (st_bl σ)))
  ∧ (stores tr = [] → st_bl σ' = st_bl σ).
Proof.
  intros [(v & _ & _ & _ & _ & -> & _ & ->)
         |[(_ & _ & _ & -> & ->)
          |(_ & b & h' & trc & b'' & h'' & _ & _ & _ & _ & -> & _ & ->)]]%manager_body_cases;
    simpl.
  - split; [done|]. split; [done|]. split; [|done].
    intros p k Hin. by apply elem_of_nil in Hin.
  - split; [done|]. split; [done|]. split; [|done].
    intros p k Hin. by apply elem_of_nil in Hin.
  - split; [|split; [|split]].
    + intros k Hk. apply lookup_insert_ne. intros <-. apply Hk.
      apply list_elem_of_here.
    + intros k Hk. destruct (decide (backLog.ID b = k)) as [<-|Hne].
      * rewrite lookup_insert_eq. eauto.
      * by rewrite lookup_insert_ne.
    + intros p k [= -> ->]%list_elem_of_singleton.
      split; [done|]. rewrite lookup_insert_eq. split; [eauto|].
      destruct (st_bl σ !! backLog.ID b) as [old|] eqn:Hold.
      * apply map_size_insert_Some. eauto.
      * by apply map_size_insert_None.
    + done.
Qed.

(** *** The order of the scan *)

Lemma range_values_perm (o1 o2 : range_order) (bl : gmap string backLog.t) :
  (range o1 bl).*2 ≡ₚ (range o2 bl).*2.
Proof. by rewrite (range_perm o1 bl), (range_perm o2 bl). Qed.

(** After a scan that found nothing, the rest of the iteration does not
    look at what the scan did. *)
Lemma manager_body_after_scan self d e g t o1 o2 σ σ' tr trs1 trs2 :
  manager_scan doesEventMatchRule d e (st_heap σ) (st_bl σ)
    (range o1 (st_bl σ)).*2 = Some (trs1, None) →
  manager_scan doesEventMatchRule d e (st_heap σ) (st_bl σ)
    (range o2 (st_bl σ)).*2 = Some (trs2, None) →
  manager_body RefToDigit copyDirective doesEventMatchRule processMatchedEvent
    self d {| ev := e; order := o1; gen := g; now := t |} σ = Some (σ', tr) →
  ∃ rest,
    tr = [Lock (blogs_mu self)] ++ trs1 ++ rest
    ∧ manager_body RefToDigit copyDirective doesEventMatchRule
        processMatchedEvent self d
        {| ev := e; order := o2; gen := g; now := t |} σ
      = Some (σ', [Lock (blogs_mu self)] ++ trs2 ++ rest).
Proof.
  intros Hs1 Hs2. unfold manager_body. simpl. rewrite Hs1, Hs2. simpl.
  destruct (deref _ _) as [Rules|]; simpl; [|done].
  destruct (index Rules 0) as [rule0|]; simpl; [|done].
  destruct (doesEventMatchRule e rule0 _); simpl.
  - destruct (createNewBackLog _ _ _ _ _ _ _) as [[[[b|msg] h'] trc]|];
      simpl; [| |done].
    + rewrite alter_insert_eq, lookup_insert_eq. simpl.
      destruct (processMatchedEvent _ _ _ _) as [b'' h''].
      intros [= <- <-]. eauto.
    + intros [= <- <-]. eauto.
  - intros [= <- <-]. eauto.
Qed.

(** X7: The order in which [range] yields the backlogs decides nothing but the
    backlog chosen when several match: two iterations on the same state and
    event that differ only in that order, if both return, leave the same
    state, store, run and warn alike, and either both dispatch or neither
    does; when no two backlogs of the map match the event, they dispatch to
    the same backlog. *)
Theorem manager_body_order_independent self d e g t o1 o2 σ σ1 σ2 tr1 tr2 :
  manager_body RefToDigit copyDirective doesEventMatchRule processMatchedEvent
    self d {| ev := e; order := o1; gen := g; now := t |} σ = Some (σ1, tr1) →
  manager_body RefToDigit copyDirective doesEventMatchRule processMatchedEvent
    self d {| ev := e; order := o2; gen := g; now := t |} σ = Some (σ2, tr2) →
  σ1 = σ2
  ∧ calls tr1 = calls tr2
  ∧ stores tr1 = stores tr2
  ∧ warnings tr1 = warnings tr2
  ∧ length (dispatches tr1) = length (dispatches tr2)
  ∧ ((∀ k1 k2 v1 v2,
        st_bl σ !! k1 = Some v1 → st_bl σ !! k2 = Some v2 →
        matches doesEventMatchRule d e (st_heap σ) v1 = true →
        matches doesEventMatchRule d e (st_heap σ) v2 = true →
        v1 = v2) →
     dispatches tr1 = dispatches tr2).
Proof.
  intros H1 H2. pose proof H1 as H1'. pose proof H2 as H2'.
  unfold manager_body in H1', H2'. simpl in H1', H2'.
  destruct (manager_scan _ _ _ _ _ (range o1 (st_bl σ)).*2)
    as [[trs1 found1]|] eqn:Hs1; simpl in H1'; [|done].
  destruct (manager_scan _ _ _ _ _ (range o2 (st_bl σ)).*2)
    as [[trs2 found2]|] eqn:Hs2; simpl in H2'; [|done].
  pose proof (manager_scan_spec self _ _ _ _ _ _ _ Hs1) as Hsp1.
  pose proof (manager_scan_spec self _ _ _ _ _ _ _ Hs2) as Hsp2.
  assert (∀ o v, v ∈ (range o (st_bl σ)).*2 → ∃ k, st_bl σ !! k = Some v) as Hval.
  { intros o v ([k v'] & -> & Hin)%list_elem_of_fmap.
    rewrite (range_perm o (st_bl σ)) in Hin.
    apply elem_of_map_to_list in Hin. eauto. }
  destruct found1 as [[bid1 idx1]|], found2 as [[bid2 idx2]|].
  - injection H1' as <- <-. injection H2' as <- <-.
    destruct Hsp1 as (pre1 & v1 & post1 & r1 & tr01 & Hvs1 & _ & Hc1 & Hr1 & Hm1
                      & -> & -> & _ & _ & _ & Hdi1 & Hca1 & Hst1 & Hwa1 & _).
    destruct Hsp2 as (pre2 & v2 & post2 & r2 & tr02 & Hvs2 & _ & Hc2 & Hr2 & Hm2
                      & -> & -> & _ & _ & _ & Hdi2 & Hca2 & Hst2 & Hwa2 & _).
    repeat match goal with
           | |- context [Lock ?m :: ?l ++ ?r] =>
               change (Lock m :: l ++ r) with ([Lock m] ++ l ++ r)
           end.
    trace_simpl. rewrite Hdi1, Hdi2, Hca1, Hca2, Hst1, Hst2, Hwa1, Hwa2.
    split; [done|]. split; [done|]. split; [done|]. split; [done|].
    split; [done|]. intros Huniq.
    destruct (Hval o1 v1) as [k1 Hk1].
    { rewrite Hvs1. apply elem_of_app. right. apply list_elem_of_here. }
    destruct (Hval o2 v2) as [k2 Hk2].
    { rewrite Hvs2. apply elem_of_app. right. apply list_elem_of_here. }
    rewrite (Huniq k1 k2 v1 v2 Hk1 Hk2); [done|unfold matches..].
    + by rewrite Hc1, Hr1.
    + by rewrite Hc2, Hr2.
  - exfalso.
    destruct Hsp1 as (pre1 & v1 & post1 & r1 & tr01 & Hvs1 & _ & Hc1 & Hr1 & Hm1 & _).
    destruct Hsp2 as (Hall & _).
    assert (v1 ∈ (range o2 (st_bl σ)).*2) as Hin.
    { rewrite (range_values_perm o2 o1), Hvs1.
      apply elem_of_app. right. apply list_elem_of_here. }
    rewrite Forall_forall in Hall. specialize (Hall v1 Hin).
    unfold matches in Hall. rewrite Hc1, Hr1 in Hall. simpl in Hall. congruence.
  - exfalso.
    destruct Hsp2 as (pre2 & v2 & post2 & r2 & tr02 & Hvs2 & _ & Hc2 & Hr2 & Hm2 & _).
    destruct Hsp1 as (Hall & _).
    assert (v2 ∈ (range o1 (st_bl σ)).*2) as Hin.
    { rewrite (range_values_perm o1 o2), Hvs2.
      apply elem_of_app. right. apply list_elem_of_here. }
    rewrite Forall_forall in Hall. specialize (Hall v2 Hin).
    unfold matches in Hall. rewrite Hc2, Hr2 in Hall. simpl in Hall. congruence.
  - clear H1' H2'.
    destruct (manager_body_after_scan _ _ _ _ _ _ _ _ _ _ _ _ Hs1 Hs2 H1)
      as (rest & -> & H2'').
    rewrite H2 in H2''. injection H2'' as -> ->.
    repeat match goal with
           | |- context [Lock ?m :: ?l ++ ?r] =>
               change (Lock m :: l ++ r) with ([Lock m] ++ l ++ r)
           end.
    destruct Hsp1 as (_ & _ & _ & Hdi1 & Hca1 & Hst1 & Hwa1 & _).
    destruct Hsp2 as (_ & _ & _ & Hdi2 & Hca2 & Hst2 & Hwa2 & _).
    trace_simpl. by rewrite Hdi1, Hdi2, Hca1, Hca2, Hst1, Hst2, Hwa1, Hwa2.
Qed.

(** *** Removals *)

Lemma removeBackLog_state m (allBacklogs : list backlogs.t) :
  fst <$> removeBackLog m allBacklogs
  = (g ← allBacklogs !! removalChannelMsg.blogs m;
     Some (<[removalChannelMsg.blogs m :=
               backlogs.set_bl (delete (removalChannelMsg.ID m) (backlogs.bl g)) g]>
             allBacklogs)).
Proof. unfold removeBackLog. by destruct (allBacklogs !! _). Qed.

Lemma removal_consumer_cons m msgs (allBacklogs : list backlogs.t) :
  removal_consumer (m :: msgs) allBacklogs
  = (all1 ← fst <$> removeBackLog m allBacklogs; removal_consumer msgs all1).
Proof. simpl. by destruct (removeBackLog m allBacklogs) as [[??]|]. Qed.

Lemma removeBackLog_commute m1 m2 (allBacklogs : list backlogs.t) :
  (all1 ← fst <$> removeBackLog m1 allBacklogs; fst <$> removeBackLog m2 all1)
  = (all1 ← fst <$> removeBackLog m2 allBacklogs; fst <$> removeBackLog m1 all1).
Proof.
  destruct m1 as [p1 k1], m2 as [p2 k2].
  destruct (allBacklogs !! p1) as [g1|] eqn:H1;
    destruct (allBacklogs !! p2) as [g2|] eqn:H2;
    rewrite (removeBackLog_state _ allBacklogs); simpl; rewrite H1;
    rewrite (removeBackLog_state _ allBacklogs); simpl; rewrite H2; simpl;
    rewrite ?removeBackLog_state; simpl.
  - pose proof (lookup_lt_Some _ _ _ H1). pose proof (lookup_lt_Some _ _ _ H2).
    destruct (decide (p1 = p2)) as [->|Hne].
    + assert (g1 = g2) as -> by congruence.
      rewrite !list_lookup_insert_eq by done. simpl.
      rewrite !list_insert_insert_eq. unfold backlogs.set_bl. simpl.
      by rewrite delete_delete.
    + rewrite !list_lookup_insert_ne by done. rewrite H1, H2. simpl.
      by rewrite list_insert_insert_ne.
  - apply lookup_ge_None in H2.
    rewrite (proj2 (lookup_ge_None _ _)); [done|]. by rewrite length_insert.
  - apply lookup_ge_None in H1.
    rewrite (proj2 (lookup_ge_None _ _)); [done|]. by rewrite length_insert.
  - done.
Qed.

Lemma removal_consumer_cons2 m1 m2 msgs (allBacklogs : list backlogs.t) :
  removal_consumer (m1 :: m2 :: msgs) allBacklogs
  = (a ← (all1 ← fst <$> removeBackLog m1 allBacklogs;
          fst <$> removeBackLog m2 all1);
     removal_consumer msgs a).
Proof.
  rewrite removal_consumer_cons.
  destruct (fst <$> removeBackLog m1 allBacklogs) as [a1|]; [|done].
  apply removal_consumer_cons.
Qed.

(** X8: The removals may run in any order: two schedules of the same messages
    leave the groups in the same state (or both fail, on a message whose
    group does not exist). *)
Theorem removal_consumer_any_order msgs msgs' (allBacklogs : list backlogs.t) :
  msgs ≡ₚ msgs' →
  removal_consumer msgs allBacklogs = removal_consumer msgs' allBacklogs.
Proof.
  intros Hp. revert allBacklogs.
  induction Hp as [|m l l' _ IH|m1 m2 l|l1 l2 l3 _ IH1 _ IH2]; intros all.
  - done.
  - rewrite !removal_consumer_cons. by destruct (fst <$> _); simpl.
  - by rewrite !removal_consumer_cons2, removeBackLog_commute.
  - by rewrite IH1.
Qed.

(** X9: Once the removals have run, a group holds exactly the backlogs it held
    that no message named; nothing else of the groups changes. *)
Theorem removal_consumer_result msgs : ∀ (allBacklogs : list backlogs.t),
  (∀ m, m ∈ msgs → removalChannelMsg.blogs m < length allBacklogs) →
  ∃ all',
    removal_consumer msgs allBacklogs = Some all'
    ∧ length all' = length allBacklogs
    ∧ ∀ p g, allBacklogs !! p = Some g →
        ∃ g', all' !! p = Some g'
              ∧ backlogs.id g' = backlogs.id g
              ∧ ∀ k, (removalChannelMsg.mk p k ∈ msgs →
                      backlogs.bl g' !! k = None)
                     ∧ (removalChannelMsg.mk p k ∉ msgs →
                        backlogs.bl g' !! k = backlogs.bl g !! k).
Proof.
  assert (EqDecision removalChannelMsg.t) as Hdec by solve_decision.
  induction msgs as [|m msgs IH]; intros all Hvalid.
  - exists all. split; [done|]. split; [done|]. intros p g Hg.
    exists g. split; [done|]. split; [done|]. intros k.
    split; [by intros ?%elem_of_nil | done].
  - destruct m as [p0 k0].
    destruct (lookup_lt_is_Some_2 all p0) as [g0 Hg0].
    { apply (Hvalid (removalChannelMsg.mk p0 k0)), list_elem_of_here. }
    pose proof (lookup_lt_Some _ _ _ Hg0) as Hlt.
    destruct (IH (<[p0 := backlogs.set_bl (delete k0 (backlogs.bl g0)) g0]> all))
      as (all' & Hrun & Hlen & Hall).
    { intros m Hm. rewrite length_insert. apply Hvalid.
      by apply list_elem_of_further. }
    exists all'. rewrite removal_consumer_cons, removeBackLog_state. simpl.
    rewrite Hg0. simpl. split; [done|].
    rewrite length_insert in Hlen. split; [done|]. intros p g Hg.
    destruct (decide (p = p0)) as [->|Hne].
    + assert (g = g0) as -> by congruence.
      destruct (Hall p0 (backlogs.set_bl (delete k0 (backlogs.bl g0)) g0))
        as (g' & Hg' & Hid & Hbl); [by apply list_lookup_insert_eq|].
      exists g'. split; [done|]. split; [done|]. intros k.
      destruct (Hbl k) as [Hin Hout]. simpl in Hout. split.
      * intros [[= ->]|Hk]%elem_of_cons; [|by apply Hin].
        destruct (decide (removalChannelMsg.mk p0 k0 ∈ msgs)) as [Hd|Hd];
          [by apply Hin|]. rewrite (Hout Hd). apply lookup_delete_eq.
      * intros Hk. apply not_elem_of_cons in Hk as [Hk0 Hk].
        rewrite (Hout Hk). apply lookup_delete_ne. congruence.
    + destruct (Hall p g) as (g' & Hg' & Hid & Hbl);
        [by rewrite list_lookup_insert_ne|].
      exists g'. split; [done|]. split; [done|]. intros k.
      destruct (Hbl k) as [Hin Hout]. split.
      * intros [[= -> _]|Hk]%elem_of_cons; [done|by apply Hin].
      * intros Hk. apply not_elem_of_cons in Hk as [_ Hk]. by apply Hout.
Qed.

(** *** A removal and the sweep after it *)

Lemma total_size_insert (allBacklogs : list backlogs.t) : ∀ p g g',
  allBacklogs !! p = Some g →
  total_size (<[p := g']> allBacklogs)
  = (total_size allBacklogs - Z.of_nat (size (backlogs.bl g))
     + Z.of_nat (size (backlogs.bl g')))%Z.
Proof.
  induction allBacklogs as [|g0 gs IH]; intros [|p] g g' Hg; simpl in *;
    [done|done| |].
  - injection Hg as <-. lia.
  - rewrite (IH p g g' Hg). lia.
Qed.

Lemma watchdog_tick_run order alarms eps (allBacklogs : list backlogs.t) :
  ∃ tr,
    watchdog_tick order alarms eps allBacklogs
    = Some (wrap (total_size allBacklogs), tr)
    ∧ published tr = [wrap (total_size allBacklogs)]
    ∧ checks tr = expected_checks order 0 allBacklogs.
Proof.
  unfold watchdog_tick.
  destruct (sweep_groups_spec order allBacklogs 0 0) as (tr & Hs & Hch & Hpu).
  change (wrap 0) with 0%Z in Hs. rewrite Hs. simpl.
  eexists. split; [done|].
  rewrite !checks_cons, !published_cons, checks_app, published_app.
  rewrite !checks_cons, !published_cons, Hch, Hpu. simpl.
  by rewrite app_nil_r.
Qed.

(** X10: The sweep that follows the removal of a backlog that was in its group
    publishes a count one lower than the groups held before, does not call
    [checkExpired] on the removed backlog and calls it on every other backlog
    as before. *)
Theorem removeBackLog_then_tick order alarms eps m
    (allBacklogs all' : list backlogs.t) g b tr :
  allBacklogs !! removalChannelMsg.blogs m = Some g →
  backlogs.bl g !! removalChannelMsg.ID m = Some b →
  removeBackLog m allBacklogs = Some (all', tr) →
  ∃ tr',
    watchdog_tick order alarms eps all'
    = Some (wrap (total_size allBacklogs - 1), tr')
    ∧ published tr' = [wrap (total_size allBacklogs - 1)]
    ∧ ((removalChannelMsg.blogs m, removalChannelMsg.ID m) ∉ checks tr')
    ∧ ∀ i k, (i, k) ≠ (removalChannelMsg.blogs m, removalChannelMsg.ID m) →
        ((i, k) ∈ checks tr' ↔
         ∃ g, allBacklogs !! i = Some g ∧ is_Some (backlogs.bl g !! k)).
Proof.
  intros Hg Hb Hrm. destruct m as [p bid]. simpl in *.
  pose proof (lookup_lt_Some _ _ _ Hg) as Hlt.
  unfold removeBackLog in Hrm. simpl in Hrm. rewrite Hg in Hrm. simpl in Hrm.
  injection Hrm as <- _.
  assert (total_size (<[p := backlogs.set_bl (delete bid (backlogs.bl g)) g]>
                        allBacklogs)
          = (total_size allBacklogs - 1)%Z) as Hsize.
  { rewrite (total_size_insert _ _ _ _ Hg). simpl.
    rewrite map_size_delete_Some by eauto.
    assert (size (backlogs.bl g) ≠ 0).
    { intros Hz%map_size_empty_iff. rewrite Hz in Hb. by rewrite lookup_empty in Hb. }
    lia. }
  destruct (watchdog_tick_run order alarms eps
              (<[p := backlogs.set_bl (delete bid (backlogs.bl g)) g]> allBacklogs))
    as (tr' & Hrun & Hpu & Hch).
  rewrite Hsize in Hrun, Hpu. exists tr'. split; [done|]. split; [done|].
  rewrite Hch.
  assert (∀ i k, (i, k) ∈ expected_checks order 0
                   (<[p := backlogs.set_bl (delete bid (backlogs.bl g)) g]>
                      allBacklogs) ↔
            ∃ g', <[p := backlogs.set_bl (delete bid (backlogs.bl g)) g]>
                    allBacklogs !! i = Some g'
                  ∧ is_Some (backlogs.bl g' !! k)) as Hin.
  { intros i k. rewrite elem_of_expected_checks, Nat.sub_0_r.
    split; [intros (g' & _ & ? & ?); eauto | intros (g' & ? & ?)].
    exists g'. split; [lia|done]. }
  split.
  - rewrite Hin. intros (g' & Hg' & [v Hv]).
    rewrite list_lookup_insert_eq in Hg' by done. injection Hg' as <-.
    simpl in Hv. by rewrite lookup_delete_eq in Hv.
  - intros i k Hne. rewrite Hin. destruct (decide (i = p)) as [->|Hip].
    + rewrite list_lookup_insert_eq by done.
      assert (k ≠ bid) as Hk by congruence. split.
      * intros (g' & [= <-] & Hv). simpl in Hv.
        rewrite lookup_delete_ne in Hv by done. eauto.
      * intros (g' & Hg' & Hv). assert (g' = g) as -> by congruence.
        eexists. split; [done|]. simpl. by rewrite lookup_delete_ne.
    + by rewrite list_lookup_insert_ne.
Qed.

(** *** Locks: what one goroutine holds *)

Lemma run_app ok (L : locks) tr1 tr2 :
  run ok L (tr1 ++ tr2) = (L1 ← run ok L tr1; run ok L1 tr2).
Proof.
  revert L. induction tr1 as [|a tr1 IH]; intros L; simpl; [done|].
  by destruct (enabled L a && ok L a).
Qed.

Lemma run_any ok (L L' : locks) tr :
  run ok L tr = Some L' → run any_action L tr = Some L'.
Proof.
  revert L. induction tr as [|a tr IH]; intros L; simpl; [done|].
  destruct (enabled L a); simpl; [|done].
  destruct (ok L a); [apply IH|done].
Qed.

Lemma run_plain ok (L : locks) mid tr :
  Forall (λ a, plain a = true ∧ ok L a = true) mid →
  run ok L (mid ++ tr) = run ok L tr.
Proof.
  induction 1 as [|a mid [Hp Hok] _ IH]; simpl; [done|].
  rewrite Hok. by destruct a.
Qed.

Lemma run_RLock ok (L : locks) m tr :
  L !! m = None → ok L (RLock m) = true →
  run ok L (RLock m :: tr) = run ok (<[m := Read 0]> L) tr.
Proof. intros Hm Hok. simpl. by rewrite Hm, Hok. Qed.

Lemma run_RUnlock ok (L : locks) m tr :
  L !! m = None → ok (<[m := Read 0]> L) (RUnlock m) = true →
  run ok (<[m := Read 0]> L) (RUnlock m :: tr) = run ok L tr.
Proof.
  intros Hm Hok. simpl. rewrite lookup_insert_eq, Hok. simpl.
  by rewrite delete_insert_id.
Qed.

Lemma run_Lock ok (L : locks) m tr :
  L !! m = None → ok L (Lock m) = true →
  run ok L (Lock m :: tr) = run ok (<[m := Written]> L) tr.
Proof. intros Hm Hok. simpl. by rewrite Hm, Hok. Qed.

Lemma run_Unlock ok (L : locks) m tr :
  L !! m = None → ok (<[m := Written]> L) (Unlock m) = true →
  run ok (<[m := Written]> L) (Unlock m :: tr) = run ok L tr.
Proof.
  intros Hm Hok. simpl. rewrite lookup_insert_eq, Hok. simpl.
  by rewrite delete_insert_id.
Qed.

Ltac locks_simpl :=
  repeat first
    [ progress simpl
    | rewrite lookup_singleton_eq | rewrite lookup_insert_eq
    | rewrite lookup_insert_ne by done | rewrite lookup_singleton_ne by done
    | rewrite lookup_empty | rewrite insert_empty
    | rewrite delete_singleton_eq | rewrite delete_insert_eq
    | rewrite delete_insert_ne by done | rewrite delete_empty
    | rewrite bool_decide_true by done ].

(** The scan, run under the lock of the group: every read lock it takes on
    a backlog it releases. *)
Lemma manager_scan_run self d e (h : heap) bl : ∀ vs tr found,
  manager_scan doesEventMatchRule d e h bl vs = Some (tr, found) →
  ∀ L : locks,
    L !! blogs_mu self = Some Written →
    (∀ bid, L !! backLog_mu bid = None) →
    run (manager_ok self) L tr = Some L.
Proof.
  induction vs as [|v vs IH]; intros tr found; simpl.
  - by intros [= <- <-].
  - rewrite skip_candidate.
    assert (∀ (L : locks) mid rest,
              L !! blogs_mu self = Some Written →
              (∀ bid, L !! backLog_mu bid = None) →
              Forall (λ a, plain a = true) mid →
              Forall (λ a, match a with
                           | Match _ _ _ | Log _ _ => True
                           | _ => False
                           end) mid →
              run (manager_ok self) L
                (RLock (backLog_mu (backLog.ID v)) :: mid
                 ++ RUnlock (backLog_mu (backLog.ID v)) :: rest)
              = run (manager_ok self) L rest) as Hsection.
    { intros L mid rest HL Hfree Hplain Hmid.
      rewrite run_RLock by done. rewrite run_plain.
      - by rewrite run_RUnlock.
      - apply Forall_forall. intros a Ha.
        rewrite Forall_forall in Hplain, Hmid.
        split; [by apply Hplain|]. specialize (Hmid a Ha).
        destruct a; try done. simpl.
        apply bool_decide_eq_true. by rewrite lookup_insert_ne. }
    destruct (candidate d v); simpl.
    + destruct (deref h _) as [Rules|]; simpl; [|done].
      destruct (index Rules _) as [r|]; simpl; [|done].
      destruct (doesEventMatchRule e r _); simpl.
      * destruct (bl !! backLog.ID v); simpl; [|done].
        intros [= <- <-] L HL Hfree.
        etrans; [apply (Hsection L [_; _] [_]); done || by repeat constructor|].
        simpl. rewrite HL. by case_bool_decide.
      * destruct (manager_scan _ _ _ _ _ vs) as [[tr' found']|]; simpl; [|done].
        intros [= <- <-] L HL Hfree.
        etrans; [apply (Hsection L [_] tr'); done || by repeat constructor|].
        by eapply IH.
    + destruct (manager_scan _ _ _ _ _ vs) as [[tr' found']|]; simpl; [|done].
      intros [= <- <-] L HL Hfree.
      etrans; [apply (Hsection L [] tr'); done || by repeat constructor|].
      by eapply IH.
Qed.

Lemma manager_body_run self d inp σ σ' tr :
  manager_body RefToDigit copyDirective doesEventMatchRule processMatchedEvent
    self d inp σ = Some (σ', tr) →
  run (manager_ok self) ∅ tr = Some ∅.
Proof.
  assert (∀ trs found rest,
            manager_scan doesEventMatchRule d (ev inp) (st_heap σ) (st_bl σ)
              (range (order inp) (st_bl σ)).*2 = Some (trs, found) →
            run (manager_ok self) {[blogs_mu self := Written]} rest = Some ∅ →
            run (manager_ok self) ∅ ([Lock (blogs_mu self)] ++ trs ++ rest)
            = Some ∅) as Hgo.
  { intros trs found rest Hs Hrest. simpl.
    rewrite lookup_empty. simpl. rewrite insert_empty, run_app.
    rewrite (manager_scan_run self _ _ _ _ _ _ _ Hs);
      [done|apply lookup_singleton_eq|].
    intros bid. by apply lookup_singleton_ne. }
  intros [trs bid idx Hs|trs Rules rule0 Hs Hd H0 Hm
         |trs Rules rule0 msg h' trc Hs Hd H0 Hm Hc
         |trs Rules rule0 b h' trc b'' h'' Hs Hd H0 Hm Hc Hp]%manager_body_outcome.
  - apply (Hgo _ _ _ Hs). by locks_simpl.
  - apply (Hgo _ _ _ Hs). by locks_simpl.
  - destruct (gen inp) as [bid'|msg'] eqn:Hg.
    { by apply createNewBackLog_ok in Hc as [[? ?] _]. }
    simpl in Hc. injection Hc as <- <- <-.
    apply (Hgo _ _ _ Hs). by locks_simpl.
  - destruct (gen inp) as [bid'|msg'] eqn:Hg; [|done].
    apply createNewBackLog_ok in Hc as [_ ->].
    apply (Hgo _ _ _ Hs). by locks_simpl.
Qed.

(** X11: However many events the loop of a group has handled, it has kept to the
    lock discipline and holds no lock: in every iteration it tests rules and
    dispatches with the lock of its group held, stores only into its own map
    and with both locks held, runs the first advance of a new backlog under
    the global lock after it has released the lock of the group, and releases
    each lock it took exactly once on every path; it never deletes a backlog
    and never checks one for expiry. *)
Theorem manager_locks self d : ∀ ch σ σ' tr,
  manager RefToDigit copyDirective doesEventMatchRule processMatchedEvent
    self d ch σ = Some (σ', tr) →
  run (manager_ok self) ∅ tr = Some ∅.
Proof.
  induction ch as [|[inp itf] ch IH]; intros σ σ' tr; simpl.
  - by intros [= <- <-].
  - destruct (manager_body _ _ _ _ _ _ _ _) as [[σ1 tr1]|] eqn:Hb;
      simpl; [|done].
    destruct (manager _ _ _ _ _ _ ch σ1) as [[σ2 tr2]|] eqn:Hm;
      simpl; [|done].
    intros [= <- <-]. rewrite run_app.
    rewrite (manager_body_run _ _ _ _ _ _ Hb). simpl. by eapply IH.
Qed.

(** *** Locks: the sweep *)

Lemma sweep_groups_cons order i g gs bLen n tr :
  sweep_groups order i (g :: gs) bLen = Some (n, tr) →
  ∃ js bLen' tr',
    sweep_groups order (S i) gs bLen' = Some (n, tr')
    ∧ tr = [RLock glock; RLock (blogs_mu i);
            Log Debug ("ticker locked backlogs "
                       +:+ strconv.Itoa (backlogs.id g))]
           ++ (Call_checkExpired i <$> js)
           ++ [RUnlock (blogs_mu i); RUnlock glock] ++ tr'.
Proof.
  simpl. destruct (Z.of_nat (size (backlogs.bl g)) =? 0)%Z.
  - destruct (sweep_groups order (S i) gs bLen) as [[n' tr']|] eqn:Hs;
      simpl; [|done].
    intros [= <- <-]. by exists [], bLen, tr'.
  - rewrite check_all_spec by (intros j; apply range_keys). simpl.
    destruct (sweep_groups order (S i) gs _) as [[n' tr']|] eqn:Hs;
      simpl; [|done].
    intros [= <- <-]. by eexists _, _, tr'.
Qed.

Lemma sweep_group_run i msg js rest (L : locks) :
  L !! glock = None → L !! blogs_mu i = None →
  run sweep_ok L
    ([RLock glock; RLock (blogs_mu i); Log Debug msg]
     ++ (Call_checkExpired i <$> js)
     ++ [RUnlock (blogs_mu i); RUnlock glock] ++ rest)
  = run sweep_ok L rest.
Proof.
  intros Hg Hi.
  change ([RLock glock; RLock (blogs_mu i); Log Debug msg]
          ++ (Call_checkExpired i <$> js)
          ++ [RUnlock (blogs_mu i); RUnlock glock] ++ rest)
    with (RLock glock :: RLock (blogs_mu i)
          :: (Log Debug msg :: (Call_checkExpired i <$> js))
          ++ RUnlock (blogs_mu i) :: RUnlock glock :: rest).
  rewrite run_RLock by done.
  rewrite run_RLock by (done || by rewrite lookup_insert_ne).
  rewrite run_plain.
  - rewrite run_RUnlock by (done || by rewrite lookup_insert_ne).
    by rewrite run_RUnlock.
  - constructor; [done|]. apply Forall_fmap, Forall_forall. intros k _.
    split; [done|]. simpl. apply bool_decide_eq_true.
    by rewrite lookup_insert_eq, lookup_insert_ne, lookup_insert_eq.
Qed.



(** *** Locks: the sweep against a writer *)

Lemma run_steps_left (L L' : locks) pre ta tb :
  run any_action L pre = Some L' →
  rtc step (L, pre ++ ta, tb) (L', ta, tb).
Proof.
  revert L. induction pre as [|a pre IH]; intros L; simpl.
  - by intros [= ->].
  - destruct (enabled L a) eqn:Hen; simpl; [|done]. intros Hrun.
    eapply rtc_l; [by apply step_left|]. by apply IH.
Qed.

Lemma run_steps_right (L L' : locks) pre ta tb :
  run any_action L pre = Some L' →
  rtc step (L, ta, pre ++ tb) (L', ta, tb).
Proof.
  revert L. induction pre as [|b pre IH]; intros L; simpl.
  - by intros [= ->].
  - destruct (enabled L b) eqn:Hen; simpl; [|done]. intros Hrun.
    eapply rtc_l; [by apply step_right|]. by apply IH.
Qed.

(** The sweep comes to group [p] having released every lock it took. *)
Lemma sweep_groups_reaches order p : ∀ gs i bLen n tr,
  sweep_groups order i gs bLen = Some (n, tr) →
  i ≤ p < i + length gs →
  ∃ pre rest,
    tr = pre ++ RLock glock :: RLock (blogs_mu p) :: rest
    ∧ ∀ L : locks,
        L !! glock = None → (∀ j, j ≠ p → L !! blogs_mu j = None) →
        run sweep_ok L pre = Some L.
Proof.
  induction gs as [|g gs IH]; intros i bLen n tr; simpl; [lia|].
  intros (js & bLen' & tr' & Hs & ->)%sweep_groups_cons Hp.
  destruct (decide (p = i)) as [->|Hne].
  - exists [], (Log Debug ("ticker locked backlogs "
                           +:+ strconv.Itoa (backlogs.id g))
                :: (Call_checkExpired i <$> js)
                ++ [RUnlock (blogs_mu i); RUnlock glock] ++ tr').
    split; [done|]. done.
  - destruct (IH _ _ _ _ Hs) as (pre & rest & -> & Hrun); [lia|].
    exists ([RLock glock; RLock (blogs_mu i);
             Log Debug ("ticker locked backlogs "
                        +:+ strconv.Itoa (backlogs.id g))]
            ++ (Call_checkExpired i <$> js)
            ++ [RUnlock (blogs_mu i); RUnlock glock] ++ pre), rest.
    split; [by rewrite <- !app_assoc|].
    intros L Hg Hfree. rewrite sweep_group_run by auto. by apply Hrun.
Qed.

Lemma watchdog_tick_reaches order alarms eps (allBacklogs : list backlogs.t) p :
  p < length allBacklogs →
  ∃ bLen pre rest,
    watchdog_tick order alarms eps allBacklogs
    = Some (bLen, pre ++ RLock glock :: RLock (blogs_mu p) :: rest)
    ∧ run any_action {[blogs_mu p := Written]} pre
      = Some {[blogs_mu p := Written]}.
Proof.
  intros Hp. unfold watchdog_tick.
  destruct (sweep_groups_spec order allBacklogs 0 0) as (tr & Hs & _).
  change (wrap 0) with 0%Z in Hs. rewrite Hs. simpl.
  destruct (sweep_groups_reaches order p _ _ _ _ _ Hs) as (pre & rest & -> & Hrun);
    [lia|].
  eexists (wrap (0 + total_size allBacklogs)),
    ([Log Debug "Watchdog tick started."; RLock alarms_mu;
      Set_alarmCounter alarms; RUnlock alarms_mu] ++ pre), _.
  split; [by rewrite <- !app_assoc|].
  apply (run_any sweep_ok). locks_simpl. apply Hrun.
  - by apply lookup_singleton_ne.
  - intros j Hj. apply lookup_singleton_ne. congruence.
Qed.

(** A writer that holds the lock of group [p] and asks for the global lock,
    against a sweep that holds the global read lock and asks for the lock of
    group [p]: neither can go on. *)
Lemma writer_sweep_deadlocked p ta tb :
  deadlocked (<[glock := Read 0]> {[blogs_mu p := Written]},
              Lock glock :: ta, RLock (blogs_mu p) :: tb).
Proof.
  split; [done|]. split; [done|]. intros c' Hstep.
  inversion Hstep as [L a ta' tb' Hen|L ta' b tb' Hen]; subst; simpl in Hen.
  - by rewrite lookup_insert_eq in Hen.
  - by rewrite lookup_insert_ne, lookup_singleton_eq in Hen.
Qed.

Lemma writer_sweep_deadlock order alarms eps (allBacklogs : list backlogs.t)
    p pre ta :
  p < length allBacklogs →
  run any_action ∅ pre = Some {[blogs_mu p := Written]} →
  ∃ bLen tb c,
    watchdog_tick order alarms eps allBacklogs = Some (bLen, tb)
    ∧ rtc step (∅, pre ++ Lock glock :: ta, tb) c
    ∧ deadlocked c.
Proof.
  intros Hp Hpre.
  destruct (watchdog_tick_reaches order alarms eps allBacklogs p Hp)
    as (bLen & spre & rest & Htick & Hrun).
  eexists bLen, _, _. split; [exact Htick|].
  split; [|apply (writer_sweep_deadlocked p ta rest)].
  etrans; [by apply run_steps_left|].
  etrans; [by apply run_steps_right|].
  apply rtc_once.
  replace (<[glock:=Read 0]> {[blogs_mu p := Written]} : locks)
    with (perform {[blogs_mu p := Written]} (RLock glock)).
  - apply step_right. simpl. by rewrite lookup_singleton_ne.
  - simpl. by rewrite lookup_singleton_ne.
Qed.

(** X13: A removal and a sweep that run side by side can block each other for
    good: [removeBackLog] takes the lock of its group and then asks for the
    global lock, the sweep takes the global read lock and then asks for the
    lock of that group.  From the start, with every lock free, the two reach
    a state in which neither has finished and neither can take its next
    action. *)
Theorem removeBackLog_sweep_deadlock order alarms eps m
    (allBacklogs all' : list backlogs.t) ta :
  removeBackLog m allBacklogs = Some (all', ta) →
  ∃ bLen tb c,
    watchdog_tick order alarms eps allBacklogs = Some (bLen, tb)
    ∧ rtc step (∅, ta, tb) c
    ∧ deadlocked c.
Proof.
  unfold removeBackLog.
  destruct (allBacklogs !! removalChannelMsg.blogs m) as [g|] eqn:Hg;
    simpl; [|done].
  intros [= _ <-]. apply lookup_lt_Some in Hg.
  apply (writer_sweep_deadlock order alarms eps allBacklogs
           (removalChannelMsg.blogs m)
           [Lock (blogs_mu (removalChannelMsg.blogs m));
            Log Debug "Lock obtained. Removing backlog"]); [done|].
  by locks_simpl.
Qed.

(** X14: The iteration of a group loop that creates a backlog and a sweep that
    run side by side can block each other for good in the same way: the loop
    holds the lock of its group when it asks for the global lock. *)
Theorem manager_body_sweep_deadlock order alarms eps self d inp σ σ' ta
    (allBacklogs : list backlogs.t) :
  manager_body RefToDigit copyDirective doesEventMatchRule processMatchedEvent
    self d inp σ = Some (σ', ta) →
  stores ta ≠ [] →
  self < length allBacklogs →
  ∃ bLen tb c,
    watchdog_tick order alarms eps allBacklogs = Some (bLen, tb)
    ∧ rtc step (∅, ta, tb) c
    ∧ deadlocked c.
Proof.
  intros Hb Hst Hself. pose proof Hb as Hb'.
  apply manager_body_cases in Hb'
    as [(v & _ & _ & _ & _ & Hno & _)
       |[(_ & _ & _ & Hno & _)|_]]; [done|done|].
  apply manager_body_outcome in Hb.
  destruct Hb as [trs bid idx Hs|trs Rules rule0 Hs Hd H0 Hm
         |trs Rules rule0 msg h' trc Hs Hd H0 Hm Hc
         |trs Rules rule0 b h' trc b'' h'' Hs Hd H0 Hm Hc Hp].
  - apply (manager_scan_spec self) in Hs
      as (? & ? & ? & ? & ? & _ & _ & _ & _ & _ & _ & _ & _ & _ & _ & _ & _ & Hst0 & _).
    exfalso. apply Hst. trace_simpl. by rewrite Hst0.
  - apply (manager_scan_spec self) in Hs as (_ & _ & _ & _ & _ & Hst0 & _).
    exfalso. apply Hst. trace_simpl. by rewrite Hst0.
  - apply (manager_scan_spec self) in Hs as (_ & _ & _ & _ & _ & Hst0 & _).
    destruct (gen inp) as [bid'|msg'] eqn:Hg.
    { by apply createNewBackLog_ok in Hc as [[? ?] _]. }
    simpl in Hc. injection Hc as <- <- <-.
    exfalso. apply Hst. trace_simpl. by rewrite Hst0.
  - destruct (gen inp) as [bid'|msg'] eqn:Hg; [|done].
    apply createNewBackLog_ok in Hc as [_ ->].
    pose proof (manager_scan_run self _ _ _ _ _ _ _ Hs
                  {[blogs_mu self := Written]}) as Hrun.
    destruct (writer_sweep_deadlock order alarms eps allBacklogs self
                ([Lock (blogs_mu self)] ++ trs
                 ++ [Match rule0 (event.ConnID (ev inp)) true;
                     Log Info "Creating new backlog"])
                [MapStore self (backLog.ID b); Unlock (blogs_mu self);
                 Call_processMatchedEvent (backLog.ID b) (ev inp) 0;
                 Unlock glock] Hself)
      as (bLen & tb & c & Htick & Hsteps & Hdead).
    { apply (run_any (manager_ok self)). simpl.
      rewrite lookup_empty. simpl. rewrite insert_empty, run_app, Hrun.
      - by locks_simpl.
      - apply lookup_singleton_eq.
      - intros bid. by apply lookup_singleton_ne. }
    exists bLen, tb, c. split; [done|]. split; [|done].
    by rewrite <- !app_assoc in Hsteps.
Qed.

(** *** What the map of a group holds *)

(** X15: The loop of a group keeps its map in order: if every backlog is stored
    under its own identifier and belongs to the directive of the group, it
    is so again after any number of events, as long as copying the directive
    keeps its identifier and neither a stage advance nor the other goroutines
    change the identifier or the directive identifier of a backlog. *)
Theorem manager_keeps_group_inv self d :
  (∀ dst src e (h h1 : heap) bD,
     copyDirective dst src e h = Some (bD, h1) →
     directive.ID bD = directive.ID src) →
  (∀ e idx b (h : heap),
     backLog.ID (processMatchedEvent e idx b h).1 = backLog.ID b
     ∧ directive.ID (backLog.Directive (processMatchedEvent e idx b h).1)
       = directive.ID (backLog.Directive b)) →
  ∀ ch σ σ' tr,
    Forall (λ x, ∀ σ0, group_inv d (st_bl σ0) → group_inv d (st_bl (x.2 σ0))) ch →
    group_inv d (st_bl σ) →
    manager RefToDigit copyDirective doesEventMatchRule processMatchedEvent
      self d ch σ = Some (σ', tr) →
    group_inv d (st_bl σ').
Proof.
  intros Hcopy Hadv.
  induction ch as [|[inp itf] ch IH]; intros σ σ' tr Hitf Hinv; simpl.
  - by intros [= <- <-].
  - apply Forall_cons in Hitf as [Hitf0 Hitf].
    destruct (manager_body _ _ _ _ _ _ _ _) as [[σ1 tr1]|] eqn:Hb;
      simpl; [|done].
    destruct (manager _ _ _ _ _ _ ch σ1) as [[σ2 tr2]|] eqn:Hm;
      simpl; [|done].
    intros [= <- <-]. apply (IH σ1 σ2 tr2 Hitf); [|done].
    specialize (Hitf0 σ Hinv). simpl in Hitf0.
    apply manager_body_cases in Hb
      as [(v & _ & _ & _ & _ & _ & _ & ->)
         |[(_ & _ & _ & _ & ->)
          |(_ & b & h' & trc & b'' & h'' & Hc & Hp & _ & _ & _ & _ & ->)]];
      [done|done|]. simpl.
    intros k v Hv. destruct (decide (backLog.ID b = k)) as [<-|Hne].
    + rewrite lookup_insert_eq in Hv. injection Hv as <-.
      destruct (Hadv (ev inp) 0%Z (backLog.set_bLogs (Some self) b) h')
        as [Hid Hdir].
      rewrite Hp in Hid, Hdir. simpl in Hid, Hdir.
      split; [done|]. rewrite Hdir.
      unfold createNewBackLog in Hc.
      destruct (gen inp) as [bid|msg]; [|done].
      destruct (copyDirective _ _ _ _) as [[bD h1]|] eqn:Hcp; simpl in Hc; [|done].
      destruct (initBackLogRules _ _ _ _) as [h2|]; simpl in Hc; [|done].
      destruct (in_place _ _ _) as [h3|]; simpl in Hc; [|done].
      destruct (deref h3 _) as [Rules|]; simpl in Hc; [|done].
      injection Hc as <- _ _. simpl. by eapply Hcopy.
    + rewrite lookup_insert_ne in Hv by done. by apply Hitf0.
Qed.

End Proofs.

(** * The modelled parser and the concrete inputs *)

Import Examples.

Lemma RefToDigit_Itoa n : str.RefToDigit (strconv.Itoa n) = None.
Proof.
  unfold strconv.Itoa. destruct n as [|p|p]; simpl; [done|..];
    by destruct (Pos.to_uint p).
Qed.

Lemma refs_backward_in_range RefToDigit (Rules : list directiveRule) :
  refs_backward RefToDigit Rules → refs_in_range RefToDigit Rules.
Proof.
  intros H i r f K Hr Hi HK. specialize (H i r f K Hr Hi HK).
  apply lookup_lt_Some in Hr. lia.
Qed.

(** C3, as the code has it: for a template whose references of the later
    stages all name an earlier stage and whose stage 1 holds no field that
    parses as a reference, and an event whose addresses do not parse as
    references, resolution returns, no field of any stage parses as a
    reference afterwards, and running it again on the resolved copy changes
    nothing. *)
Theorem initBackLogRules_backward_concrete_fixed d e (h : heap) Rules :
  deref h (directive.Rules d) = Some Rules →
  refs_backward str.RefToDigit Rules →
  (∀ r0, Rules !! 0 = Some r0 → concrete str.RefToDigit r0) →
  str.RefToDigit (event.SrcIP e) = None →
  str.RefToDigit (event.DstIP e) = None →
  ∃ h' Rules',
    initBackLogRules str.RefToDigit d e h = Some h'
    ∧ deref h' (directive.Rules d) = Some Rules'
    ∧ (∀ i r', Rules' !! i = Some r' → concrete str.RefToDigit r')
    ∧ initBackLogRules str.RefToDigit d e h' = Some h'.
Proof.
  intros Hd Hback H0 Hsrc Hdst.
  destruct (initBackLogRules_range_is_Some str.RefToDigit e Rules)
    as [Rules' HR]; [by apply refs_backward_in_range|].
  pose proof (initBackLogRules_range_spec _ _ _ _ HR) as Hrw.
  assert (∀ i r', Rules' !! i = Some r' → concrete str.RefToDigit r') as Hc.
  { apply (rewritten_concrete _ e Rules Rules'); try done.
    intros []; simpl; auto using RefToDigit_Itoa. }
  pose proof (rewritten_fixed _ e Rules Rules' Hrw Hc) as Hfix.
  pose proof (initBackLogRules_intro _ _ _ _ _ _ Hd HR) as Hh'.
  eexists _, Rules'. split; [exact Hh'|].
  destruct (directive.Rules d) as [l|] eqn:Hl; simpl in *.
  - rewrite lookup_insert_eq. split; [done|]. split; [done|].
    unfold initBackLogRules, in_place. rewrite Hl, lookup_insert_eq. simpl.
    rewrite Hfix. simpl. by rewrite insert_insert_eq.
  - injection Hd as <-. injection HR as <-. split; [done|]. split; [done|].
    unfold initBackLogRules. by rewrite Hl.
Qed.

Lemma chain_backward : refs_backward str.RefToDigit chain.
Proof.
  intros i r f K Hr Hi HK.
  destruct i as [|[|[|i]]]; [done|..]; simpl in Hr; [| |done];
    injection Hr as <-; destruct f; vm_compute in HK; try done;
    injection HK as <-; vm_compute; split; congruence.
Qed.

Lemma chain_first_concrete r0 :
  chain !! 0 = Some r0 → concrete str.RefToDigit r0.
Proof. intros [= <-] []; reflexivity. Qed.

Lemma initBackLogRules_backward_concrete_fixed_witness :
  ∃ h' Rules',
    initBackLogRules str.RefToDigit template E1 (heap_with chain) = Some h'
    ∧ deref h' (directive.Rules template) = Some Rules'
    ∧ (∀ i r', Rules' !! i = Some r' → concrete str.RefToDigit r')
    ∧ initBackLogRules str.RefToDigit template E1 h' = Some h'.
Proof.
  apply (initBackLogRules_backward_concrete_fixed template E1 (heap_with chain) chain).
  - reflexivity.
  - exact chain_backward.
  - exact chain_first_concrete.
  - reflexivity.
  - reflexivity.
Defined.

(** C3 as worded fails: with stage 2 referring forward to stage 3, stage 2
    is left holding the text [:1], which parses as a reference. *)
Lemma resolution_not_total_and_idempotent : ¬ resolution_total_and_idempotent.
Proof.
  intros H.
  destruct (H template E1 (heap_with forward) forward eq_refl)
    as (h' & Rules' & Hh' & Hd' & Hc & _).
  vm_compute in Hh'. injection Hh' as <-.
  vm_compute in Hd'. injection Hd' as <-.
  specialize (Hc 1 _ ltac:(done) eq_refl F_From). vm_compute in Hc. done.
Qed.

(** The examples, run. *)

Example chain_resolves :
  initBackLogRules str.RefToDigit template E1 (heap_with chain)
  = Some (heap_with chain_resolved).
Proof. vm_compute. reflexivity. Qed.

Example first_event_creates :
  manager_body str.RefToDigit copyDirective_deep match_source no_advance 0 template
    (first_event (ok "b1")) start
  = Some (created_state, created_trace).
Proof. vm_compute. reflexivity. Qed.

Example next_event_dispatches :
  manager_body str.RefToDigit copyDirective_deep match_source no_advance 0 template
    (first_event (ok "b2")) advanced_state
  = Some (advanced_state,
          [Lock (blogs_mu 0); RLock (backLog_mu "b1");
           Match (resolved_stage "inactive" "10.0.0.1" "5.6.7.8" "4444" "80" 0)
             1 true;
           Log Debug " Event match with existing backlog. CurrentStage is 2";
           RUnlock (backLog_mu "b1");
           Go_processMatchedEvent "b1" E1 1;
           Unlock (blogs_mu 0)]).
Proof. vm_compute. reflexivity. Qed.

Example out_of_range_reference_panics :
  initBackLogRules_range str.RefToDigit E1
    [stage "10.0.0.1" "ANY" "ANY" "80"; stage ":5" "ANY" "ANY" "ANY"]
  = None.
Proof. vm_compute. reflexivity. Qed.

Example forward_reference_resolves_twice :
  ∃ once twice,
    initBackLogRules_range str.RefToDigit E1 forward = Some once
    ∧ initBackLogRules_range str.RefToDigit E1 once = Some twice
    ∧ From <$> once !! 1 = Some ":1"
    ∧ From <$> twice !! 1 = Some "10.0.0.1".
Proof. eexists _, _. repeat split; vm_compute; reflexivity. Qed.

Lemma initBackLogRules_rewrites_witness :
  deref (heap_with chain) (directive.Rules template) = Some chain
  ∧ ∃ Rules',
      deref (heap_with chain_resolved) (directive.Rules template) = Some Rules'
      ∧ rules_rewritten str.RefToDigit E1 chain Rules'.
Proof.
  split; [reflexivity|].
  apply (proj2 (initBackLogRules_rewrites str.RefToDigit template E1
                  (heap_with chain) chain eq_refl) (heap_with chain_resolved)).
  vm_compute. reflexivity.
Defined.

Lemma initBackLogRules_reads_copy_witness :
  ∃ rj', chain_resolved !! 1 = Some rj'
         ∧ From (resolved_stage "inactive" "10.0.0.1" "5.6.7.8" "ANY" "80" 0)
           = From rj'.
Proof.
  destruct (initBackLogRules_reads_copy str.RefToDigit template E1
              (heap_with chain) (heap_with chain_resolved) chain chain_resolved
              eq_refl eq_refl eq_refl
              2 (stage ":2" ":2" "ANY" ":2")
              (resolved_stage "inactive" "10.0.0.1" "5.6.7.8" "ANY" "80" 0)
              F_From 2 ltac:(lia) eq_refl eq_refl eq_refl)
    as (_ & Hback & _).
  destruct Hback as (rj' & Hrj' & _ & Hchain); [vm_compute; split; congruence|].
  exists rj'. split; [exact Hrj'|].
  apply (Hchain (stage ":1" ":1" ":1" ":1")).
  - reflexivity.
  - reflexivity.
  - by exists 1%Z.
Defined.

(** C5 as worded fails: the event carries the timestamp 100, the clock
    reads 200 at creation, and the start time is 200. *)
Lemma start_time_not_event_timestamp : ¬ start_time_is_event_timestamp.
Proof.
  intros H. assert (200 = 100)%Z as Habs; [|done].
  apply (H template E1 "b1" 200%Z (heap_with chain) created_heap created
           [Log Info "Creating new backlog"] created_rules
           (resolved_stage "active" "10.0.0.1" "ANY" "ANY" "80" 200));
    vm_compute; reflexivity.
Qed.

Lemma createNewBackLog_StartTime_now_witness :
  ∃ Rules_b r0,
    deref created_heap (directive.Rules (backLog.Directive created)) = Some Rules_b
    ∧ Rules_b !! 0 = Some r0
    ∧ StartTime r0 = 200%Z.
Proof.
  apply (createNewBackLog_StartTime_now str.RefToDigit copyDirective_deep template E1 "b1" 200
           (heap_with chain) created_heap created
           [Log Info "Creating new backlog"]).
  vm_compute. reflexivity.
Defined.

(** C6 as worded fails: on the creation path the lock of the group is
    released before the first event is processed. *)
Lemma group_lock_released_before_first_event :
  ¬ group_lock_released_after_first_event.
Proof.
  intros H.
  destruct (H str.RefToDigit copyDirective_deep match_source no_advance 0 template
              (first_event (ok "b1")) start created_state created_trace "b1")
    as (pre & post & Htr & Hpre & _).
  - vm_compute. reflexivity.
  - unfold created_trace. set_solver.
  - unfold created_trace in Htr.
    repeat (destruct pre as [|? pre]; simplify_eq/=).
    apply Hpre. set_solver.
Qed.

Lemma manager_body_lock_order_witness :
  ∃ pre,
    created_trace
    = Lock (blogs_mu 0) :: pre
      ++ [Lock glock; MapStore 0 "b1"; Unlock (blogs_mu 0);
          Call_processMatchedEvent "b1" E1 0; Unlock glock]
    ∧ Forall (quiet 0) pre.
Proof.
  destruct (manager_body_lock_order str.RefToDigit copyDirective_deep match_source no_advance 0
              template (first_event (ok "b1")) start created_state created_trace)
    as (Hcreate & _ & _); [vm_compute; reflexivity|].
  apply (Hcreate "b1"). unfold created_trace.
  do 4 apply list_elem_of_further. apply list_elem_of_here.
Defined.

Lemma manager_body_GenerateID_fails_witness :
  manager_body str.RefToDigit copyDirective_deep match_source no_advance 0 template
    (first_event (err "exhausted")) start
  = Some (start,
          [Lock (blogs_mu 0);
           Match (stage "10.0.0.1" "ANY" "ANY" "80") 1 true;
           Log Warn "Fail to create new backlog";
           Unlock (blogs_mu 0)]).
Proof.
  destruct (manager_body_GenerateID_fails str.RefToDigit copyDirective_deep
              match_source no_advance
              0 template (first_event (err "exhausted")) start "exhausted" []
              chain (stage "10.0.0.1" "ANY" "ANY" "80"))
    as (_ & Hbody & _); [vm_compute; reflexivity..|].
  exact Hbody.
Defined.

Lemma removeBackLog_frame_witness :
  ∃ all' g',
    removeBackLog {| removalChannelMsg.blogs := 0; removalChannelMsg.ID := "b1" |}
      groups
    = Some (all',
            [Lock (blogs_mu 0); Log Debug "Lock obtained. Removing backlog";
             Lock glock; MapDelete 0 "b1"; Unlock glock; Unlock (blogs_mu 0)])
    ∧ all' !! 0 = Some g'
    ∧ backlogs.bl g' !! "b1" = None
    ∧ all' !! 1 = groups !! 1.
Proof.
  destruct (removeBackLog_frame
              {| removalChannelMsg.blogs := 0; removalChannelMsg.ID := "b1" |}
              groups {| backlogs.id := 0; backlogs.bl := {[ "b1" := created ]} |})
    as (all' & g' & Hrun & _ & Hg' & _ & Hgone & _ & Hothers & _);
    [reflexivity|].
  exists all', g'. split; [exact Hrun|]. split; [exact Hg'|].
  split; [exact Hgone|]. by apply Hothers.
Defined.


(** * Further properties on the concrete inputs *)

Import Cases.

Lemma initBackLogRules_returns_iff_witness :
  is_Some (initBackLogRules str.RefToDigit template E1 (heap_with chain))
  ↔ refs_in_range str.RefToDigit chain.
Proof.
  apply (initBackLogRules_returns_iff str.RefToDigit template E1
           (heap_with chain) chain).
  reflexivity.
Defined.

Lemma createNewBackLog_no_rule_panics_witness :
  createNewBackLog str.RefToDigit copyDirective_deep template E1 (ok "b1") 200
    (heap_with []) = None.
Proof.
  apply (createNewBackLog_no_rule_panics str.RefToDigit copyDirective_deep
           template E1 "b1" 200 (heap_with [])
           (<[2%positive := []]> (heap_with []))
           {| directive.ID := 7; directive.Rules := Some 2%positive |});
    vm_compute; reflexivity.
Defined.

Lemma manager_body_no_rule_panics_witness :
  manager_body str.RefToDigit copyDirective_deep match_source no_advance 0
    template (first_event (ok "b1")) bare = None.
Proof.
  apply manager_body_no_rule_panics.
  - reflexivity.
  - apply Forall_nil_2.
Defined.

Lemma manager_body_stage_out_of_range_panics_witness :
  manager_body str.RefToDigit copyDirective_deep match_source no_advance 0
    template (first_event (ok "b2")) overrun_state = None.
Proof.
  apply (manager_body_stage_out_of_range_panics str.RefToDigit
           copyDirective_deep match_source no_advance 0 template
           (first_event (ok "b2")) overrun_state [] overrun []).
  - vm_compute. reflexivity.
  - apply Forall_nil_2.
  - reflexivity.
  - vm_compute. reflexivity.
Defined.

Lemma manager_body_one_advance_witness :
  length (dispatches created_trace) + length (calls created_trace) ≤ 1
  ∧ stores created_trace = (λ x, (0, x.1.1)) <$> calls created_trace.
Proof.
  destruct (manager_body_one_advance str.RefToDigit copyDirective_deep
              match_source no_advance 0 template (first_event (ok "b1"))
              start created_state created_trace)
    as (Hone & _ & Hstores & _); [vm_compute; reflexivity|].
  split; [exact Hone|exact Hstores].
Defined.

Lemma manager_body_map_frame_witness :
  is_Some (st_bl created_state !! "b1")
  ∧ size (st_bl created_state) = S (size (st_bl start)).
Proof.
  destruct (manager_body_map_frame str.RefToDigit copyDirective_deep
              match_source no_advance 0 template (first_event (ok "b1"))
              start created_state created_trace)
    as (_ & _ & Hstore & _); [vm_compute; reflexivity|].
  destruct (Hstore 0 "b1") as (_ & Hin & Hsize); [apply list_elem_of_here|].
  split; [exact Hin|exact Hsize].
Defined.

Lemma manager_body_order_independent_witness :
  match manager_body str.RefToDigit copyDirective_deep match_source no_advance
          0 template (event_in range_default) two_state,
        manager_body str.RefToDigit copyDirective_deep match_source no_advance
          0 template (event_in range_reversed) two_state with
  | Some (σ1, tr1), Some (σ2, tr2) =>
      σ1 = σ2 ∧ stores tr1 = stores tr2
      ∧ length (dispatches tr1) = length (dispatches tr2)
  | _, _ => False
  end.
Proof.
  destruct (manager_body _ _ _ _ _ _ (event_in range_default) _)
    as [[σ1 tr1]|] eqn:H1; [|vm_compute in H1; discriminate H1].
  destruct (manager_body _ _ _ _ _ _ (event_in range_reversed) _)
    as [[σ2 tr2]|] eqn:H2; [|vm_compute in H2; discriminate H2].
  destruct (manager_body_order_independent str.RefToDigit copyDirective_deep
              match_source no_advance 0 template E1 (ok "b2") 200
              range_default range_reversed two_state σ1 σ2 tr1 tr2 H1 H2)
    as (Hσ & _ & Hst & _ & Hlen & _).
  split; [exact Hσ|]. split; [exact Hst|exact Hlen].
Defined.

Lemma removal_consumer_any_order_witness :
  removal_consumer [remove_b1; remove_other] groups
  = removal_consumer [remove_other; remove_b1] groups.
Proof.
  apply removal_consumer_any_order. apply perm_swap.
Defined.

Lemma removal_consumer_result_witness :
  ∃ all', removal_consumer [remove_b1] groups = Some all'
          ∧ length all' = length groups.
Proof.
  destruct (removal_consumer_result [remove_b1] groups)
    as (all' & Hrun & Hlen & _).
  - intros m Hm. apply list_elem_of_singleton in Hm. rewrite Hm. simpl. lia.
  - exists all'. split; [exact Hrun|exact Hlen].
Defined.

Lemma removeBackLog_then_tick_witness :
  match removeBackLog remove_b1 groups with
  | Some (all', _) =>
      ∃ tr', watchdog_tick range_default 0 None all'
             = Some (wrap (total_size groups - 1), tr')
             ∧ (0, "b1") ∉ checks tr'
  | None => False
  end.
Proof.
  destruct (removeBackLog remove_b1 groups) as [[all' tr]|] eqn:Hrm;
    [|vm_compute in Hrm; discriminate Hrm].
  destruct (removeBackLog_then_tick range_default 0 None remove_b1 groups all'
              {| backlogs.id := 0; backlogs.bl := {[ "b1" := created ]} |}
              created tr)
    as (tr' & Htick & _ & Hno & _);
    [reflexivity|reflexivity|exact Hrm|].
  exists tr'. split; [exact Htick|exact Hno].
Defined.

Lemma manager_locks_witness :
  run (manager_ok 0) ∅ created_trace = Some ∅.
Proof.
  apply (manager_locks str.RefToDigit copyDirective_deep match_source
           no_advance 0 template [(first_event (ok "b1"), λ σ, σ)] start
           created_state created_trace).
  vm_compute. reflexivity.
Defined.

Lemma removeBackLog_sweep_deadlock_witness :
  ∃ bLen tb c,
    watchdog_tick range_default 0 None groups = Some (bLen, tb)
    ∧ rtc step
        (∅, [Lock (blogs_mu 0); Log Debug "Lock obtained. Removing backlog";
             Lock glock; MapDelete 0 "b1"; Unlock glock;
             Unlock (blogs_mu 0)], tb) c
    ∧ deadlocked c.
Proof.
  eapply (removeBackLog_sweep_deadlock range_default 0 None remove_b1 groups).
  reflexivity.
Defined.

Lemma manager_body_sweep_deadlock_witness :
  ∃ bLen tb c,
    watchdog_tick range_default 0 None groups = Some (bLen, tb)
    ∧ rtc step (∅, created_trace, tb) c
    ∧ deadlocked c.
Proof.
  apply (manager_body_sweep_deadlock str.RefToDigit copyDirective_deep
           match_source no_advance range_default 0 None 0 template
           (first_event (ok "b1")) start created_state created_trace groups).
  - vm_compute. reflexivity.
  - discriminate.
  - simpl. lia.
Defined.

Lemma manager_keeps_group_inv_witness :
  group_inv template (st_bl created_state).
Proof.
  apply (manager_keeps_group_inv str.RefToDigit copyDirective_deep
           match_source no_advance 0 template) with
    (ch := [(first_event (ok "b1"), λ σ, σ)]) (σ := start)
    (tr := created_trace).
  - intros dst src e h h1 bD. unfold copyDirective_deep.
    destruct (deref h (directive.Rules src)); [|discriminate].
    intros Heq. injection Heq as <- _. reflexivity.
  - intros e idx b h. split; reflexivity.
  - apply Forall_cons_2; [|apply Forall_nil_2]. intros σ0 Hinv. exact Hinv.
  - intros k v Hk. change (st_bl start) with (∅ : gmap string backLog.t) in Hk.
    rewrite lookup_empty in Hk. discriminate Hk.
  - vm_compute. reflexivity.
Defined.
